(** * ProblemSearchEngine

    A shallow embedding of [client/src/lib/searchEngine.ts]: the tokenizer,
    the inverted index built by the constructor, [search], [autocomplete]
    and [getStats], followed by the properties of the specification that
    were checked against them.

    Conventions of the embedding.
    - A JavaScript string is the list of its UTF-16 code units ([N]).
    - [Map] and [Set] iterate in insertion order, which [search] exposes
      through the order of equal scores; both are association lists / lists
      without repetition, kept in insertion order.
    - Scores are sums of 10, 5 and 2, far below 2^53, so the doubles of the
      source are exact integers ([Z]).
    - [maxResults] and [maxSuggestions] are integers ([Z]): [slice] rounds
      its arguments towards zero before anything else.  Their defaults (20
      and 8) are left to the caller.  [slice] is given its behaviour on
      negative arguments.
    - [Problem] keeps the four fields that the engine reads.
    - [toLowerCase] follows [String.prototype.toLowerCase] wherever the
      tokenizer can tell; which strings [autocomplete] matches is proved
      with the lower-casing function as a parameter ([autocomplete_with]),
      so for every case table. *)

From Stdlib Require Import List NArith ZArith Bool Arith Lia.
From Stdlib Require Import Ascii Permutation Sorted.
From Stdlib Require String.
Import String.StringSyntax.
Delimit Scope string_scope with string.
Import ListNotations.

Set Implicit Arguments.

(* ================================================================== *)
(** ** JavaScript strings *)

Module JsString.

Definition jsstring := list N.

(** A literal of the source, as code units. *)
Definition str (s : String.string) : jsstring :=
  map N_of_ascii (String.list_ascii_of_string s).
Arguments str s%_string.

Fixpoint str_eqb (a b : jsstring) : bool :=
  match a, b with
  | [], [] => true
  | x :: a', y :: b' => N.eqb x y && str_eqb a' b'
  | _, _ => false
  end.

Definition in_range (lo hi c : N) : bool := (N.leb lo c && N.leb c hi)%bool.

(** [\s] of a regular expression, which is also what [trim] removes:
    TAB LF VT FF CR SP NBSP, U+1680, U+2000..U+200A, U+2028, U+2029,
    U+202F, U+205F, U+3000, U+FEFF. *)
Definition is_space (c : N) : bool :=
  (in_range 9 13 c || N.eqb c 32 || N.eqb c 160 || N.eqb c 5760
   || in_range 8192 8202 c || N.eqb c 8232 || N.eqb c 8233
   || N.eqb c 8239 || N.eqb c 8287 || N.eqb c 12288 || N.eqb c 65279)%bool.

(** [a-z0-9] *)
Definition is_lower_alnum (c : N) : bool :=
  (in_range 97 122 c || in_range 48 57 c)%bool.

(** [A-Za-z0-9] *)
Definition is_ascii_alnum (c : N) : bool :=
  (in_range 65 90 c || is_lower_alnum c)%bool.

(** U+212A KELVIN SIGN and U+0130 LATIN CAPITAL LETTER I WITH DOT ABOVE:
    the two characters outside ASCII whose lower case contains an ASCII
    letter. *)
Definition kelvin_sign : N := 8490.
Definition capital_i_dot : N := 304.

(** [String.prototype.toLowerCase], one code unit at a time.  Basic Latin
    and Latin-1 Supplement are mapped in full ([A-Z], and U+00C0..U+00DE
    but for the multiplication sign U+00D7); so are the two characters
    above (KELVIN SIGN gives [k]; I WITH DOT ABOVE gives [i] followed by
    U+0307).  Every other code unit is left as it is: its lower case is
    again outside ASCII, so the tokenizer, which blanks everything outside
    [a-z0-9\s], sees no difference.  Matching in [autocomplete] does see
    the difference, so what is proved of its matching is proved of
    [autocomplete_with], for every lower-casing function. *)
Definition lower_unit (c : N) : list N :=
  if in_range 65 90 c then [(c + 32)%N]
  else if (in_range 192 222 c && negb (N.eqb c 215))%bool then [(c + 32)%N]
  else if N.eqb c capital_i_dot then [105; 775]%N
  else if N.eqb c kelvin_sign then [107%N]
  else [c].

Definition toLowerCase (s : jsstring) : jsstring := flat_map lower_unit s.

(** [s.startsWith(p)] *)
Fixpoint startsWith (s p : jsstring) : bool :=
  match p, s with
  | [], _ => true
  | x :: p', c :: s' => N.eqb x c && startsWith s' p'
  | _ :: _, [] => false
  end.

(** [s.includes(p)] *)
Fixpoint includes (s p : jsstring) : bool :=
  startsWith s p ||
  match s with
  | [] => false
  | _ :: s' => includes s' p
  end.

Fixpoint trimStart (s : jsstring) : jsstring :=
  match s with
  | [] => []
  | c :: s' => if is_space c then trimStart s' else s
  end.

(** [s.trim()] *)
Definition trim (s : jsstring) : jsstring :=
  rev (trimStart (rev (trimStart s))).

(** [!s]: only the empty string is falsy. *)
Definition falsy (s : jsstring) : bool :=
  match s with [] => true | _ :: _ => false end.

(** [s.replace(/[^a-z0-9\s]/g, ' ')] *)
Definition blank_non_token (s : jsstring) : jsstring :=
  map (fun c => if (is_lower_alnum c || is_space c)%bool then c else 32%N) s.

(** [s.split(/\s+/)].  [cur] holds, reversed, the piece being read;
    [in_sep] tells that the previous unit belonged to a separator. *)
Fixpoint split_from (cur : jsstring) (in_sep : bool) (s : jsstring)
  : list jsstring :=
  match s with
  | [] => [rev cur]
  | c :: s' =>
      if is_space c then
        if in_sep then split_from cur true s'
        else rev cur :: split_from [] true s'
      else split_from (c :: cur) false s'
  end.

Definition split_spaces (s : jsstring) : list jsstring :=
  split_from [] false s.

(** [Array.prototype.slice(0, e)] for an integer [e]: a negative [e]
    counts from the end of the array. *)
Definition slice0 {A : Type} (e : Z) (l : list A) : list A :=
  let len := Z.of_nat (length l) in
  let final := if (e <? 0)%Z then Z.max (len + e) 0 else Z.min e len in
  firstn (Z.to_nat final) l.

End JsString.
Export JsString.

(* ================================================================== *)
(** ** [Map] and [Set] in insertion order *)

Section OrderedMap.
Variables (K V : Type).
Variable eqb : K -> K -> bool.

(** [m.get(k)]; [None] is [undefined]. *)
Fixpoint map_get (k : K) (m : list (K * V)) : option V :=
  match m with
  | [] => None
  | (k', v) :: m' => if eqb k k' then Some v else map_get k m'
  end.

(** [m.has(k)] *)
Definition map_has (k : K) (m : list (K * V)) : bool :=
  match map_get k m with Some _ => true | None => false end.

(** [m.set(k, v)]: a key that is present keeps its place. *)
Fixpoint map_set (k : K) (v : V) (m : list (K * V)) : list (K * V) :=
  match m with
  | [] => [(k, v)]
  | (k', v') :: m' =>
      if eqb k k' then (k, v) :: m' else (k', v') :: map_set k v m'
  end.

(** [m.size] *)
Definition map_size (m : list (K * V)) : nat := length m.

Definition map_keys (m : list (K * V)) : list K := map fst m.
End OrderedMap.

Section OrderedSet.
Variable A : Type.
Variable eqb : A -> A -> bool.

(** [s.has(x)] *)
Definition set_has (x : A) (s : list A) : bool := existsb (eqb x) s.

(** [s.add(x)] *)
Definition set_add (x : A) (s : list A) : list A :=
  if set_has x s then s else s ++ [x].
End OrderedSet.

(* ================================================================== *)
(** ** The engine *)

Module Engine.

(** [Problem.difficulty : 'Easy' | 'Medium' | 'Hard'] *)
Inductive Difficulty := Easy | Medium | Hard.

Definition difficulty_name (d : Difficulty) : jsstring :=
  match d with
  | Easy => str "Easy"
  | Medium => str "Medium"
  | Hard => str "Hard"
  end.

Definition difficulty_eqb (a b : Difficulty) : bool :=
  match a, b with
  | Easy, Easy | Medium, Medium | Hard, Hard => true
  | _, _ => false
  end.

(** The fields of [Problem] that the engine reads. *)
Record Problem := mkProblem {
  title : jsstring;
  frontend_id : jsstring;
  difficulty : Difficulty;
  topics : list jsstring
}.

(** The labels added to [matchedFields]: ['exact'], ['prefix'],
    ['contains']. *)
Inductive MatchKind := exact | prefix | contains.

Definition kind_eqb (a b : MatchKind) : bool :=
  match a, b with
  | exact, exact | prefix, prefix | contains, contains => true
  | _, _ => false
  end.

Record ScoreEntry := mkEntry {
  entry_score : Z;
  entry_fields : list MatchKind
}.

(** [SearchResult]; [problem] is [this.problems[idx]], [None] standing for
    [undefined]. *)
Record SearchResult := mkResult {
  problem : option Problem;
  score : Z;
  matchedFields : list MatchKind
}.

Definition Index := list (jsstring * list nat).
Definition Scores := list (nat * ScoreEntry).

(** *** tokenize *)

Definition tokenize (text : jsstring) : list jsstring :=
  filter (fun word => 0 <? length word)
         (split_spaces (blank_non_token (toLowerCase text))).

(** *** buildIndex *)

(** [if (!index.has(word)) index.set(word, new Set());
     index.get(word)!.add(idx);] *)
Definition post (idx : nat) (index : Index) (word : jsstring) : Index :=
  let index1 :=
    if map_has str_eqb word index then index
    else map_set str_eqb word [] index in
  match map_get str_eqb word index1 with
  | Some indices => map_set str_eqb word (set_add Nat.eqb idx indices) index1
  | None => index1
  end.

(** The body of the outer [forEach] of [buildIndex]. *)
Definition index_problem (index : Index) (idx : nat) (p : Problem) : Index :=
  let index := fold_left (post idx) (tokenize (title p)) index in
  let index :=
    fold_left (fun ix topic => fold_left (post idx) (tokenize topic) ix)
              (topics p) index in
  let diffWord := toLowerCase (difficulty_name (difficulty p)) in
  let index := post idx index diffWord in
  post idx index (frontend_id p).

(** [problems.forEach((problem, idx) => ...)], from position [idx] on. *)
Fixpoint index_from (idx : nat) (problems : list Problem) (index : Index)
  : Index :=
  match problems with
  | [] => index
  | p :: rest => index_from (S idx) rest (index_problem index idx p)
  end.

Definition buildIndex (problems : list Problem) : Index :=
  index_from 0 problems [].

Record ProblemSearchEngine := mkEngine {
  problems : list Problem;
  index : Index
}.

(** [new ProblemSearchEngine(problems)] *)
Definition new (ps : list Problem) : ProblemSearchEngine :=
  mkEngine ps (buildIndex ps).

(** *** search *)

(** [if (!scores.has(idx)) scores.set(idx, {score: 0, matchedFields: new Set()});
     const entry = scores.get(idx)!;
     entry.score += delta; entry.matchedFields.add(kind);] *)
Definition bump (delta : Z) (kind : MatchKind) (scores : Scores) (idx : nat)
  : Scores :=
  let scores1 :=
    if map_has Nat.eqb idx scores then scores
    else map_set Nat.eqb idx (mkEntry 0 []) scores in
  match map_get Nat.eqb idx scores1 with
  | Some entry =>
      map_set Nat.eqb idx
        (mkEntry (entry_score entry + delta)
                 (set_add kind_eqb kind (entry_fields entry)))
        scores1
  | None => scores1
  end.

(** [indices.forEach(idx => ...)] *)
Definition bump_all (delta : Z) (kind : MatchKind) (indices : list nat)
    (scores : Scores) : Scores :=
  fold_left (bump delta kind) indices scores.

Definition exact_pass (ix : Index) (word : jsstring) (scores : Scores)
  : Scores :=
  if map_has str_eqb word ix then
    match map_get str_eqb word ix with
    | Some indices => bump_all 10 exact indices scores
    | None => scores
    end
  else scores.

Definition prefix_pass (ix : Index) (word : jsstring) (scores : Scores)
  : Scores :=
  fold_left
    (fun sc (e : jsstring * list nat) =>
       let (indexWord, indices) := e in
       if (startsWith indexWord word && negb (str_eqb indexWord word))%bool
       then bump_all 5 prefix indices sc else sc)
    ix scores.

Definition contains_pass (ix : Index) (word : jsstring) (scores : Scores)
  : Scores :=
  fold_left
    (fun sc (e : jsstring * list nat) =>
       let (indexWord, indices) := e in
       if (includes indexWord word && negb (startsWith indexWord word))%bool
       then bump_all 2 contains indices sc else sc)
    ix scores.

(** The body of [queryWords.forEach]. *)
Definition score_word (ix : Index) (scores : Scores) (word : jsstring)
  : Scores :=
  contains_pass ix word (prefix_pass ix word (exact_pass ix word scores)).

(** The scores map when the loop over the query words is over. *)
Definition accumulate (ix : Index) (queryWords : list jsstring) : Scores :=
  fold_left (score_word ix) queryWords [].

(** [Array.prototype.sort(cmp)]: stable; an element goes before the first
    one that it does not compare greater than. *)
Section Sort.
Variable A : Type.
Variable cmp : A -> A -> Z.

Fixpoint sort_insert (x : A) (l : list A) : list A :=
  match l with
  | [] => [x]
  | y :: l' =>
      if (cmp x y <=? 0)%Z then x :: y :: l' else y :: sort_insert x l'
  end.

Fixpoint sort (l : list A) : list A :=
  match l with
  | [] => []
  | x :: l' => sort_insert x (sort l')
  end.
End Sort.

Definition to_result (ps : list Problem) (e : nat * ScoreEntry)
  : SearchResult :=
  let (idx, entry) := e in
  mkResult (nth_error ps idx) (entry_score entry) (entry_fields entry).

(** [(a, b) => b.score - a.score] *)
Definition by_score_desc (a b : SearchResult) : Z := (score b - score a)%Z.

(** The results of a query that passed the guard, before [slice]. *)
Definition ranked (eng : ProblemSearchEngine) (query : jsstring)
  : list SearchResult :=
  let queryWords := tokenize query in
  let scores := accumulate (index eng) queryWords in
  sort by_score_desc (map (to_result (problems eng)) scores).

Definition search (eng : ProblemSearchEngine) (query : jsstring)
    (maxResults : Z) : list SearchResult :=
  if falsy (trim query) then []
  else slice0 maxResults (ranked eng query).

(** *** autocomplete *)

Definition add_if_matches (queryLower : jsstring) (suggestions : list jsstring)
    (text : jsstring) : list jsstring :=
  if includes (toLowerCase text) queryLower
  then set_add str_eqb text suggestions
  else suggestions.

(** The suggestion set when both loops are over. *)
Definition suggestions (eng : ProblemSearchEngine) (query : jsstring)
  : list jsstring :=
  let queryLower := toLowerCase query in
  let s := fold_left (fun s p => add_if_matches queryLower s (title p))
                     (problems eng) [] in
  fold_left (fun s p => fold_left (add_if_matches queryLower) (topics p) s)
            (problems eng) s.

Definition autocomplete (eng : ProblemSearchEngine) (query : jsstring)
    (maxSuggestions : Z) : list jsstring :=
  if falsy (trim query) then []
  else slice0 maxSuggestions (suggestions eng query).

(** *** getStats *)

Record DifficultyCounts := mkCounts {
  easy : nat;
  medium : nat;
  hard : nat
}.

Record Stats := mkStats {
  totalProblems : nat;
  indexSize : nat;
  difficulties : DifficultyCounts
}.

Definition count_difficulty (d : Difficulty) (ps : list Problem) : nat :=
  length (filter (fun p => difficulty_eqb (difficulty p) d) ps).

Definition getStats (eng : ProblemSearchEngine) : Stats :=
  mkStats (length (problems eng))
          (map_size (index eng))
          (mkCounts (count_difficulty Easy (problems eng))
                    (count_difficulty Medium (problems eng))
                    (count_difficulty Hard (problems eng))).

End Engine.
Export Engine.

(* ================================================================== *)
(** ** The specification's vocabulary *)

Module Spec.

(** Position [i] is in the set stored under key [k]. *)
Definition posted (ix : Index) (k : jsstring) (i : nat) : Prop :=
  exists indices, map_get str_eqb k ix = Some indices /\ In i indices.

Definition postedb (ix : Index) (i : nat) (k : jsstring) : bool :=
  match map_get str_eqb k ix with
  | Some indices => set_has Nat.eqb i indices
  | None => false
  end.

(** What record [p] is indexed under: the tokens of its title and of each
    of its topics, its difficulty name in lower case, its identifier as it
    is. *)
Definition indexed_under (p : Problem) (k : jsstring) : Prop :=
  In k (tokenize (title p))
  \/ (exists topic, In topic (topics p) /\ In k (tokenize topic))
  \/ k = toLowerCase (difficulty_name (difficulty p))
  \/ k = frontend_id p.

(** *** The scoring rules, in the specification's words *)

(** The distinct index keys under which position [i] is stored. *)
Definition keys_with (ix : Index) (i : nat) : list jsstring :=
  filter (postedb ix i) (map_keys ix).

(** [k] starts with [w] and [k <> w]. *)
Definition prefix_rule (w k : jsstring) : bool :=
  (startsWith k w && negb (str_eqb k w))%bool.

(** [k] contains [w] and does not start with [w]. *)
Definition contains_rule (w k : jsstring) : bool :=
  (includes k w && negb (startsWith k w))%bool.

(** How many times each rule fires for position [i] and query token [w]. *)
Definition rule_count (ix : Index) (i : nat) (w : jsstring) (kind : MatchKind)
  : nat :=
  match kind with
  | exact => if postedb ix i w then 1 else 0
  | prefix => length (filter (prefix_rule w) (keys_with ix i))
  | contains => length (filter (contains_rule w) (keys_with ix i))
  end.

Definition word_score (ix : Index) (i : nat) (w : jsstring) : Z :=
  (10 * Z.of_nat (rule_count ix i w exact)
   + 5 * Z.of_nat (rule_count ix i w prefix)
   + 2 * Z.of_nat (rule_count ix i w contains))%Z.

Definition sumZ (l : list Z) : Z := fold_right Z.add 0%Z l.

(** The sum over all query tokens. *)
Definition expected_score (ix : Index) (queryWords : list jsstring) (i : nat)
  : Z :=
  sumZ (map (word_score ix i) queryWords).

(** Rule [kind] fires for position [i] and query token [w]. *)
Definition fires (ix : Index) (i : nat) (w : jsstring) (kind : MatchKind)
  : Prop :=
  match kind with
  | exact => posted ix w i
  | prefix =>
      exists k, posted ix k i /\ startsWith k w = true /\ k <> w
  | contains =>
      exists k, posted ix k i /\ includes k w = true
                /\ startsWith k w = false
  end.

Definition fires_for (ix : Index) (queryWords : list jsstring) (i : nat)
    (kind : MatchKind) : Prop :=
  exists w, In w queryWords /\ fires ix i w kind.

(** *** Autocomplete, in the specification's words *)

(** [s] has a character that is not whitespace. *)
Definition non_space (s : jsstring) : Prop :=
  exists c, In c s /\ is_space c = false.

(** [text], case-insensitively, contains the query. *)
Definition matches (query text : jsstring) : bool :=
  includes (toLowerCase text) (toLowerCase query).

(** The matching titles, records in their original order. *)
Definition matching_titles (ps : list Problem) (query : jsstring)
  : list jsstring :=
  filter (matches query) (map title ps).

(** The matching topics, in record order, topics in order. *)
Definition matching_topics (ps : list Problem) (query : jsstring)
  : list jsstring :=
  filter (matches query) (flat_map topics ps).

(** Duplicates suppressed, the first occurrence kept. *)
Fixpoint dedup_first (l : list jsstring) : list jsstring :=
  match l with
  | [] => []
  | x :: l' => x :: filter (fun y => negb (str_eqb y x)) (dedup_first l')
  end.

(** [l] without its last [n] entries. *)
Definition drop_last {A : Type} (n : nat) (l : list A) : list A :=
  firstn (length l - n) l.

(** *** The records of the end-to-end scenario *)

Definition two_sum : Problem :=
  mkProblem (str "Two Sum") (str "1") Easy [str "Array"; str "Hash Table"].

Definition number_of_islands : Problem :=
  mkProblem (str "Number of Islands") (str "200") Medium [str "Graph"].

Definition three_sum : Problem :=
  mkProblem (str "3Sum") (str "15") Medium [str "Array"; str "Two Pointers"].

(** A record whose title is the single letter K. *)
Definition letter_k : Problem :=
  mkProblem (str "K") (str "7") Hard [].

End Spec.
Export Spec.

(* ================================================================== *)
(** ** The page that calls the engine *)

(** The handlers of the [Home] component (the page that the sources keep
    after the types of [client/src/types/problem.ts]) that call [search]
    and [autocomplete].  A handler reads the state of the render it was
    created in and sets the next one; [searchEngine] is [None] until the
    records are loaded. *)
Module Home.

(** [query], [results], [suggestions] and [showSuggestions] of [useState]. *)
Record State := mkState {
  query : jsstring;
  results : list SearchResult;
  suggestions : list jsstring;
  showSuggestions : bool
}.

(** The state of the first render. *)
Definition initial : State := mkState [] [] [] false.

(** [handleSearch] *)
Definition handleSearch (searchEngine : option ProblemSearchEngine)
    (st : State) : State :=
  match searchEngine with
  | None => mkState (query st) [] (suggestions st) (showSuggestions st)
  | Some eng =>
      if falsy (trim (query st))
      then mkState (query st) [] (suggestions st) (showSuggestions st)
      else mkState (query st) (Engine.search eng (query st) 20)
                   (suggestions st) false
  end.

(** [handleInputChange], [value] being [e.target.value] *)
Definition handleInputChange (searchEngine : option ProblemSearchEngine)
    (value : jsstring) (st : State) : State :=
  match searchEngine with
  | Some eng =>
      if 2 <=? length value then
        let autoSuggestions := Engine.autocomplete eng value 8 in
        mkState value (results st) autoSuggestions
                (0 <? length autoSuggestions)
      else mkState value (results st) [] false
  | None => mkState value (results st) [] false
  end.


(** [handleKeyPress], [key] being [e.key] *)
Definition handleKeyPress (searchEngine : option ProblemSearchEngine)
    (key : jsstring) (st : State) : State :=
  if str_eqb key (str "Enter") then handleSearch searchEngine st else st.


(** What is rendered below the search box:
    [results.length > 0 ? ... : query ? ... : ...]. *)
Inductive View := ResultList | NoResultsFound | Welcome.

Definition view (st : State) : View :=
  if 0 <? length (results st) then ResultList
  else if falsy (query st) then Welcome
  else NoResultsFound.



End Home.

(* ================================================================== *)
(** ** More vocabulary *)

(** A text of record [p] that the index is built from whole: its title,
    one of its topics, or its difficulty name. *)
Definition record_text (p : Problem) (s : jsstring) : Prop :=
  s = title p \/ In s (topics p) \/ s = difficulty_name (difficulty p).

(** The score of [r] is [s]. *)
Definition has_score (s : Z) (r : SearchResult) : bool := (score r =? s)%Z.

(** *** [autocomplete] over any lower-casing function

    The table of [String.prototype.toLowerCase] is no part of the
    sources, and [toLowerCase] above follows it on Basic Latin and Latin-1
    only.  Here it is the parameter [lower]: the three definitions are
    lines 118-141 of the source with [lower] for [toLowerCase], and what is
    proved of them holds whatever the table is. *)
Section AutocompleteWith.
Variable lower : jsstring -> jsstring.

(** [if (text.toLowerCase().includes(queryLower)) suggestions.add(text)] *)
Definition add_if_matches_with (queryLower : jsstring)
    (suggestions : list jsstring) (text : jsstring) : list jsstring :=
  if includes (lower text) queryLower
  then set_add str_eqb text suggestions
  else suggestions.

(** The suggestion set when both loops are over. *)
Definition suggestions_with (eng : ProblemSearchEngine) (query : jsstring)
  : list jsstring :=
  let queryLower := lower query in
  let s := fold_left (fun s p => add_if_matches_with queryLower s (title p))
                     (problems eng) [] in
  fold_left
    (fun s p => fold_left (add_if_matches_with queryLower) (topics p) s)
    (problems eng) s.

Definition autocomplete_with (eng : ProblemSearchEngine) (query : jsstring)
    (maxSuggestions : Z) : list jsstring :=
  if falsy (trim query) then []
  else slice0 maxSuggestions (suggestions_with eng query).

(** [text], in lower case, contains the query in lower case. *)
Definition matches_with (query text : jsstring) : bool :=
  includes (lower text) (lower query).

(** The matching titles, records in their original order. *)
Definition matching_titles_with (ps : list Problem) (query : jsstring)
  : list jsstring :=
  filter (matches_with query) (map title ps).

(** The matching topics, in record order, topics in order. *)
Definition matching_topics_with (ps : list Problem) (query : jsstring)
  : list jsstring :=
  filter (matches_with query) (flat_map topics ps).

End AutocompleteWith.

(** Three records that share titles and topics. *)
Definition array_record : Problem :=
  mkProblem (str "Array") (str "11") Easy [str "Array List"; str "Array"].

Definition sort_array_record : Problem :=
  mkProblem (str "Sort Array") (str "12") Medium
            [str "Array"; str "Sorting"].

Definition heap_record : Problem :=
  mkProblem (str "Heap") (str "13") Hard [str "Array Heap"].

Definition array_records : list Problem :=
  [array_record; sort_array_record; heap_record].

(** The page after "su" is typed over the records "Two Sum" and "3Sum". *)
Definition typed_su : Home.State :=
  Home.handleInputChange (Some (new [two_sum; three_sum])) (str "su")
                         Home.initial.

(* ================================================================== *)
(** ** Definitions used by the proofs *)

Definition postings (w : jsstring) (ix : Index) : list nat :=
  match map_get str_eqb w ix with Some s => s | None => [] end.

(** Keys are pairwise distinct, and every key holds a non-empty set
    without repetition. *)
Definition wf_index (ix : Index) : Prop :=
  NoDup (map_keys ix)
  /\ Forall (fun e : jsstring * list nat => NoDup (snd e) /\ snd e <> []) ix.

Definition entry_or_zero (o : option ScoreEntry) : ScoreEntry :=
  match o with Some e => e | None => mkEntry 0 [] end.

(** One firing of a rule, seen from one position of the scores map. *)
Definition hit (d : Z) (kind : MatchKind) (o : option ScoreEntry)
  : option ScoreEntry :=
  Some (mkEntry (entry_score (entry_or_zero o) + d)
                (set_add kind_eqb kind (entry_fields (entry_or_zero o)))).

Fixpoint hits (n : nat) (d : Z) (kind : MatchKind) (o : option ScoreEntry)
  : option ScoreEntry :=
  match n with
  | 0 => o
  | S n' => hits n' d kind (hit d kind o)
  end.

(** Both loops over the index have this shape. *)
Definition scan (cond : jsstring -> bool) (d : Z) (kind : MatchKind)
    (ix : Index) (scores : Scores) : Scores :=
  fold_left
    (fun sc (e : jsstring * list nat) =>
       let (indexWord, indices) := e in
       if cond indexWord then bump_all d kind indices sc else sc)
    ix scores.

Definition sc_of (o : option ScoreEntry) : Z := entry_score (entry_or_zero o).
Definition fl_of (o : option ScoreEntry) : list MatchKind :=
  entry_fields (entry_or_zero o).

Definition has_entry (o : option ScoreEntry) : bool :=
  match o with Some _ => true | None => false end.

Definition score_ge (a b : SearchResult) : Prop := (score b <= score a)%Z.

(** Adding the strings of a list to the suggestion set, one by one. *)
Definition add_all (l acc : list jsstring) : list jsstring :=
  fold_left (fun s x => set_add str_eqb x s) l acc.

(* ================================================================== *)
(** ** The embedding at work *)

Example tokenize_strips_punctuation :
  tokenize (str "  Hash-Table, 2D!  ") = [str "hash"; str "table"; str "2d"].
Proof. reflexivity. Qed.

Example split_keeps_empty_ends :
  split_spaces (str " a  b ") = [[]; str "a"; str "b"; []].
Proof. reflexivity. Qed.

Example index_of_two_sum :
  buildIndex [two_sum]
  = [(str "two", [0]); (str "sum", [0]); (str "array", [0]);
     (str "hash", [0]); (str "table", [0]); (str "easy", [0]);
     (str "1", [0])].
Proof. reflexivity. Qed.

Example shared_keys_collect_positions :
  map_get str_eqb (str "array") (buildIndex [two_sum; three_sum])
  = Some [0; 1].
Proof. reflexivity. Qed.

Example prefix_and_contains_add_up :
  search (new [two_sum; number_of_islands]) (str "s") 10
  = [mkResult (Some two_sum) 9 [prefix; contains];
     mkResult (Some number_of_islands) 2 [contains]].
Proof. vm_compute; reflexivity. Qed.

Example slice0_negative_end : slice0 (-1) [1; 2; 3] = [1; 2].
Proof. reflexivity. Qed.

Example stats_of_two_records :
  getStats (new [two_sum; number_of_islands])
  = mkStats 2 13 (mkCounts 1 1 0).
Proof. reflexivity. Qed.

(* ================================================================== *)
(** ** Facts about strings, maps and sets *)

Lemma str_eqb_eq (a b : jsstring) : str_eqb a b = true <-> a = b.
Proof.
  revert b; induction a as [|x a IH]; intros [|y b]; simpl;
    try (split; [discriminate | congruence]); try tauto.
  rewrite andb_true_iff, N.eqb_eq, IH.
  split; [intros [-> ->]; reflexivity | intros H; inversion H; auto].
Qed.

Lemma str_eqb_refl (a : jsstring) : str_eqb a a = true.
Proof. apply str_eqb_eq; reflexivity. Qed.

Lemma kind_eqb_eq (a b : MatchKind) : kind_eqb a b = true <-> a = b.
Proof. destruct a, b; simpl; split; congruence. Qed.

Section MapFacts.
Variables (K V : Type).
Variable eqb : K -> K -> bool.
Hypothesis eqb_eq : forall a b, eqb a b = true <-> a = b.

Lemma eqb_same (k : K) : eqb k k = true.
Proof. apply eqb_eq; reflexivity. Qed.

Lemma eqb_sym_false (a b : K) : eqb a b = false -> eqb b a = false.
Proof.
  intros H; destruct (eqb b a) eqn:E; [|reflexivity].
  apply eqb_eq in E; subst; rewrite eqb_same in H; discriminate.
Qed.

Lemma map_get_set (k k' : K) (v : V) (m : list (K * V)) :
  map_get eqb k (map_set eqb k' v m)
  = if eqb k k' then Some v else map_get eqb k m.
Proof.
  induction m as [|[k0 v0] m IH]; simpl.
  - destruct (eqb k k'); reflexivity.
  - destruct (eqb k' k0) eqn:E; simpl.
    + apply eqb_eq in E; subst k0. destruct (eqb k k'); reflexivity.
    + destruct (eqb k k0) eqn:E0; [|exact IH].
      apply eqb_eq in E0; subst k0.
      rewrite (eqb_sym_false E); reflexivity.
Qed.

Lemma map_set_set (k : K) (v v' : V) (m : list (K * V)) :
  map_set eqb k v (map_set eqb k v' m) = map_set eqb k v m.
Proof.
  induction m as [|[k0 v0] m IH]; simpl.
  - rewrite eqb_same; reflexivity.
  - destruct (eqb k k0) eqn:E; simpl.
    + rewrite eqb_same; reflexivity.
    + rewrite E, IH; reflexivity.
Qed.

Lemma map_get_In (k : K) (v : V) (m : list (K * V)) :
  map_get eqb k m = Some v -> In (k, v) m.
Proof.
  induction m as [|[k0 v0] m IH]; simpl; [discriminate|].
  destruct (eqb k k0) eqn:E.
  - apply eqb_eq in E; subst; intros [= ->]; left; reflexivity.
  - intros H; right; auto.
Qed.

Lemma map_get_None (k : K) (m : list (K * V)) :
  map_get eqb k m = None <-> ~ In k (map_keys m).
Proof.
  induction m as [|[k0 v0] m IH]; simpl; [tauto|].
  destruct (eqb k k0) eqn:E.
  - apply eqb_eq in E; subst. split; [discriminate | intros H; elim H; auto].
  - rewrite IH. split; [|tauto].
    intros H [->|H']; [rewrite eqb_same in E; discriminate | tauto].
Qed.

Lemma In_map_get (k : K) (v : V) (m : list (K * V)) :
  NoDup (map_keys m) -> In (k, v) m -> map_get eqb k m = Some v.
Proof.
  induction m as [|[k0 v0] m IH]; simpl; [tauto|].
  intros Hnd [H|H]; inversion Hnd as [|? ? Hnotin Hnd']; subst.
  - inversion H; subst. rewrite eqb_same; reflexivity.
  - destruct (eqb k k0) eqn:E; [|auto].
    apply eqb_eq in E; subst k0. elim Hnotin.
    change k with (fst (k, v)). apply in_map; exact H.
Qed.

Lemma map_keys_set (k : K) (v : V) (m : list (K * V)) :
  map_keys (map_set eqb k v m)
  = if map_has eqb k m then map_keys m else map_keys m ++ [k].
Proof.
  unfold map_has.
  induction m as [|[k0 v0] m IH]; simpl; [reflexivity|].
  destruct (eqb k k0) eqn:E; simpl.
  - apply eqb_eq in E; subst; reflexivity.
  - rewrite IH. destruct (map_get eqb k m); reflexivity.
Qed.

Lemma map_keys_set_NoDup (k : K) (v : V) (m : list (K * V)) :
  NoDup (map_keys m) -> NoDup (map_keys (map_set eqb k v m)).
Proof.
  intros Hnd. rewrite map_keys_set. unfold map_has.
  destruct (map_get eqb k m) eqn:E; [exact Hnd|].
  apply map_get_None in E.
  apply NoDup_app; [exact Hnd | constructor; [simpl; tauto | constructor] |].
  intros x Hx [<-|[]]; exact (E Hx).
Qed.

Lemma map_set_Forall (P : K * V -> Prop) (k : K) (v : V) (m : list (K * V)) :
  Forall P m -> P (k, v) -> Forall P (map_set eqb k v m).
Proof.
  intros Hm Hkv; induction Hm as [|[k0 v0] m H0 Hm IH]; simpl.
  - constructor; [exact Hkv | constructor].
  - destruct (eqb k k0); constructor; auto.
Qed.

Lemma map_get_Forall (P : K * V -> Prop) (k : K) (v : V) (m : list (K * V)) :
  Forall P m -> map_get eqb k m = Some v -> P (k, v).
Proof.
  intros Hm Hg. apply map_get_In in Hg.
  rewrite Forall_forall in Hm; auto.
Qed.
End MapFacts.

Section SetFacts.
Variable A : Type.
Variable eqb : A -> A -> bool.
Hypothesis eqb_eq : forall a b, eqb a b = true <-> a = b.

Lemma set_has_In (x : A) (s : list A) : set_has eqb x s = true <-> In x s.
Proof.
  unfold set_has. rewrite existsb_exists. split.
  - intros [y [Hy E]]. apply eqb_eq in E; subst; exact Hy.
  - intros H; exists x; split; [exact H | apply eqb_eq; reflexivity].
Qed.

Lemma set_add_In (x y : A) (s : list A) :
  In y (set_add eqb x s) <-> y = x \/ In y s.
Proof.
  unfold set_add. destruct (set_has eqb x s) eqn:E.
  - apply set_has_In in E. split; [tauto | intros [->|H]; auto].
  - rewrite in_app_iff; simpl. intuition congruence.
Qed.

Lemma set_add_NoDup (x : A) (s : list A) :
  NoDup s -> NoDup (set_add eqb x s).
Proof.
  intros Hnd. unfold set_add. destruct (set_has eqb x s) eqn:E; [exact Hnd|].
  assert (~ In x s) as Hx by (rewrite <- set_has_In, E; discriminate).
  apply NoDup_app; [exact Hnd | constructor; [simpl; tauto | constructor] |].
  intros z Hz [<-|[]]; exact (Hx Hz).
Qed.

Lemma set_add_not_nil (x : A) (s : list A) : set_add eqb x s <> [].
Proof.
  unfold set_add. destruct (set_has eqb x s) eqn:E.
  - intros ->; discriminate.
  - destruct s; discriminate.
Qed.
End SetFacts.

(* ================================================================== *)
(** ** The index *)

(** The two statements of [post] amount to one [set]. *)
Lemma post_eq (i : nat) (ix : Index) (w : jsstring) :
  post i ix w = map_set str_eqb w (set_add Nat.eqb i (postings w ix)) ix.
Proof.
  unfold post, postings, map_has.
  destruct (map_get str_eqb w ix) as [s|] eqn:E.
  - rewrite E; reflexivity.
  - rewrite (map_get_set _ str_eqb_eq), str_eqb_refl.
    apply (map_set_set _ str_eqb_eq).
Qed.

Lemma posted_post (i : nat) (ix : Index) (w k : jsstring) (j : nat) :
  posted (post i ix w) k j <-> posted ix k j \/ (k = w /\ j = i).
Proof.
  unfold posted. rewrite post_eq, (map_get_set _ str_eqb_eq).
  destruct (str_eqb k w) eqn:E.
  - apply str_eqb_eq in E; subst k. unfold postings. split.
    + intros [s [[= <-] Hin]]. apply (set_add_In _ Nat.eqb_eq) in Hin.
      destruct Hin as [->|Hin]; [right; auto|].
      destruct (map_get str_eqb w ix) as [s|]; [|destruct Hin].
      left; exists s; auto.
    + intros H. eexists; split; [reflexivity|].
      apply (set_add_In _ Nat.eqb_eq).
      destruct H as [[s [Hs Hin]]|[_ ->]]; [|left; reflexivity].
      rewrite Hs; right; exact Hin.
  - split; [tauto|]. intros [H|[-> _]]; [exact H|].
    rewrite str_eqb_refl in E; discriminate.
Qed.

Lemma posted_fold_post (i : nat) (ws : list jsstring) (ix : Index)
    (k : jsstring) (j : nat) :
  posted (fold_left (post i) ws ix) k j
  <-> posted ix k j \/ (In k ws /\ j = i).
Proof.
  revert ix; induction ws as [|w ws IH]; intros ix; simpl; [tauto|].
  rewrite IH, posted_post. intuition (subst; auto).
Qed.

Lemma posted_fold_topics (i : nat) (ts : list jsstring) (ix : Index)
    (k : jsstring) (j : nat) :
  posted (fold_left (fun ix topic => fold_left (post i) (tokenize topic) ix)
                    ts ix) k j
  <-> posted ix k j
      \/ ((exists topic, In topic ts /\ In k (tokenize topic)) /\ j = i).
Proof.
  revert ix; induction ts as [|t ts IH]; intros ix; simpl.
  - split; [tauto | intros [H|[[t [[] _]] _]]; exact H].
  - rewrite IH, posted_fold_post. split.
    + intros [[H|[H ->]]|[[t' [H1 H2]] ->]]; eauto 7.
    + intros [H|[[t' [[->|H1] H2]] ->]]; eauto 7.
Qed.

Lemma posted_index_problem (ix : Index) (i : nat) (p : Problem)
    (k : jsstring) (j : nat) :
  posted (index_problem ix i p) k j
  <-> posted ix k j \/ (j = i /\ indexed_under p k).
Proof.
  unfold index_problem, indexed_under.
  rewrite !posted_post, posted_fold_topics, posted_fold_post.
  tauto.
Qed.

Lemma posted_index_from (ps : list Problem) (i : nat) (ix : Index)
    (k : jsstring) (j : nat) :
  posted (index_from i ps ix) k j
  <-> posted ix k j
      \/ (i <= j /\ exists p, nth_error ps (j - i) = Some p
                              /\ indexed_under p k).
Proof.
  revert i ix; induction ps as [|p ps IH]; intros i ix; simpl.
  - split; [tauto|]. intros [H|[_ [p [H _]]]]; [exact H|].
    destruct (j - i); discriminate.
  - rewrite IH, posted_index_problem. split.
    + intros [[H|[-> H]]|[Hle [q [Hq H]]]]; [tauto| |].
      * right; split; [lia|]. exists p. rewrite Nat.sub_diag; auto.
      * right; split; [lia|]. exists q.
        replace (j - i) with (S (j - S i)) by lia. auto.
    + intros [H|[Hle [q [Hq H]]]]; [tauto|].
      destruct (j - i) as [|n] eqn:E; simpl in Hq.
      * injection Hq as ->. left; right; split; [lia | exact H].
      * right; split; [lia|]. exists q.
        replace (j - S i) with n by lia. auto.
Qed.

Lemma wf_post (i : nat) (ix : Index) (w : jsstring) :
  wf_index ix -> wf_index (post i ix w).
Proof.
  intros [Hk Hs]. rewrite post_eq. split.
  - apply (map_keys_set_NoDup _ str_eqb_eq); exact Hk.
  - apply map_set_Forall; [exact Hs|]. simpl. split.
    + apply (set_add_NoDup _ Nat.eqb_eq). unfold postings.
      destruct (map_get str_eqb w ix) as [s|] eqn:E; [|constructor].
      apply (map_get_Forall _ str_eqb_eq w Hs E).
    + apply set_add_not_nil.
Qed.

Lemma wf_fold_post (i : nat) (ws : list jsstring) (ix : Index) :
  wf_index ix -> wf_index (fold_left (post i) ws ix).
Proof.
  revert ix; induction ws as [|w ws IH]; intros ix H; simpl; [exact H|].
  apply IH, wf_post, H.
Qed.

Lemma wf_index_problem (ix : Index) (i : nat) (p : Problem) :
  wf_index ix -> wf_index (index_problem ix i p).
Proof.
  intros H. unfold index_problem. do 2 apply wf_post.
  generalize (fold_left (post i) (tokenize (title p)) ix)
             (wf_fold_post i (tokenize (title p)) H).
  induction (topics p) as [|t ts IH]; intros ix' H'; simpl; [exact H'|].
  apply IH, wf_fold_post, H'.
Qed.

Lemma wf_buildIndex (ps : list Problem) : wf_index (buildIndex ps).
Proof.
  unfold buildIndex.
  assert (wf_index []) as H by (split; constructor).
  revert H; generalize (@nil (jsstring * list nat)) 0.
  induction ps as [|p ps IH]; intros ix i H; simpl; [exact H|].
  apply IH, wf_index_problem, H.
Qed.

(** **** C2 *)

(** C2: in the index built at construction every key holds a non-empty set
    of positions, and position [i] is under key [t] exactly when record [i]
    exists and [t] is a token of its title or of one of its topics, or its
    difficulty name in lower case, or its identifier string as supplied. *)
Theorem buildIndex_invariant (ps : list Problem) :
  (forall t indices,
      In (t, indices) (buildIndex ps) -> indices <> [])
  /\ (forall t i,
        posted (buildIndex ps) t i
        <-> exists p, nth_error ps i = Some p /\
              (In t (tokenize (title p))
               \/ (exists topic, In topic (topics p) /\ In t (tokenize topic))
               \/ t = toLowerCase (difficulty_name (difficulty p))
               \/ t = frontend_id p)).
Proof.
  split.
  - intros t s Hin. destruct (wf_buildIndex ps) as [_ Hs].
    rewrite Forall_forall in Hs. exact (proj2 (Hs _ Hin)).
  - intros t i. unfold buildIndex. rewrite posted_index_from.
    rewrite Nat.sub_0_r. fold (indexed_under). split.
    + intros [[s [H _]]|[_ H]]; [discriminate | exact H].
    + intros H; right; split; [lia | exact H].
Qed.

(* ================================================================== *)
(** ** Score accumulation *)

Lemma prefix_pass_scan (ix : Index) (w : jsstring) (sc : Scores) :
  prefix_pass ix w sc = scan (prefix_rule w) 5 prefix ix sc.
Proof. reflexivity. Qed.

Lemma contains_pass_scan (ix : Index) (w : jsstring) (sc : Scores) :
  contains_pass ix w sc = scan (contains_rule w) 2 contains ix sc.
Proof. reflexivity. Qed.

Lemma bump_get (j : nat) (d : Z) (kind : MatchKind) (sc : Scores) (i : nat) :
  map_get Nat.eqb j (bump d kind sc i)
  = if Nat.eqb j i then hit d kind (map_get Nat.eqb i sc)
    else map_get Nat.eqb j sc.
Proof.
  unfold bump, map_has.
  destruct (map_get Nat.eqb i sc) as [e|] eqn:E.
  - rewrite E, (map_get_set _ Nat.eqb_eq). reflexivity.
  - rewrite (map_get_set _ Nat.eqb_eq), Nat.eqb_refl.
    rewrite (map_set_set _ Nat.eqb_eq), (map_get_set _ Nat.eqb_eq).
    reflexivity.
Qed.

Lemma bump_keys_NoDup (d : Z) (kind : MatchKind) (sc : Scores) (i : nat) :
  NoDup (map_keys sc) -> NoDup (map_keys (bump d kind sc i)).
Proof.
  intros H. unfold bump, map_has.
  destruct (map_get Nat.eqb i sc) as [e|] eqn:E.
  - rewrite E. apply (map_keys_set_NoDup _ Nat.eqb_eq), H.
  - rewrite (map_get_set _ Nat.eqb_eq), Nat.eqb_refl.
    do 2 apply (map_keys_set_NoDup _ Nat.eqb_eq). exact H.
Qed.

Lemma bump_all_get (j : nat) (d : Z) (kind : MatchKind) (s : list nat)
    (sc : Scores) :
  NoDup s ->
  map_get Nat.eqb j (bump_all d kind s sc)
  = if set_has Nat.eqb j s then hit d kind (map_get Nat.eqb j sc)
    else map_get Nat.eqb j sc.
Proof.
  unfold bump_all. revert sc; induction s as [|i s IH]; intros sc Hnd; simpl.
  - reflexivity.
  - inversion Hnd as [|? ? Hi Hs]; subst.
    rewrite (IH _ Hs), bump_get.
    destruct (Nat.eqb j i) eqn:E; simpl; [|reflexivity].
    apply Nat.eqb_eq in E; subst i.
    assert (set_has Nat.eqb j s = false) as ->; [|reflexivity].
    destruct (set_has Nat.eqb j s) eqn:F; [|reflexivity].
    apply (set_has_In _ Nat.eqb_eq) in F; contradiction.
Qed.

Lemma bump_all_keys_NoDup (d : Z) (kind : MatchKind) (s : list nat)
    (sc : Scores) :
  NoDup (map_keys sc) -> NoDup (map_keys (bump_all d kind s sc)).
Proof.
  unfold bump_all. revert sc; induction s as [|i s IH]; intros sc H; simpl.
  - exact H.
  - apply IH, bump_keys_NoDup, H.
Qed.

Lemma scan_get (cond : jsstring -> bool) (d : Z) (kind : MatchKind)
    (j : nat) (l : Index) (sc : Scores) :
  Forall (fun e : jsstring * list nat => NoDup (snd e) /\ snd e <> []) l ->
  map_get Nat.eqb j (scan cond d kind l sc)
  = hits (length (filter (fun e : jsstring * list nat =>
                            (cond (fst e) && set_has Nat.eqb j (snd e))%bool) l))
         d kind (map_get Nat.eqb j sc).
Proof.
  unfold scan. intros Hl; revert sc.
  induction Hl as [|[k s] l [Hs _] Hl IH]; intros sc; simpl; [reflexivity|].
  rewrite IH. simpl in Hs.
  destruct (cond k); simpl; [|reflexivity].
  rewrite (bump_all_get _ _ _ _ Hs).
  destruct (set_has Nat.eqb j s); reflexivity.
Qed.

Lemma scan_keys_NoDup (cond : jsstring -> bool) (d : Z) (kind : MatchKind)
    (l : Index) (sc : Scores) :
  NoDup (map_keys sc) -> NoDup (map_keys (scan cond d kind l sc)).
Proof.
  unfold scan. revert sc; induction l as [|[k s] l IH]; intros sc H; simpl.
  - exact H.
  - apply IH. destruct (cond k); [apply bump_all_keys_NoDup|]; exact H.
Qed.

(** Counting entries of the index is counting the keys of [keys_with]. *)
Lemma count_entries_keys (cond : jsstring -> bool) (ix : Index) (j : nat) :
  NoDup (map_keys ix) ->
  length (filter (fun e : jsstring * list nat =>
                    (cond (fst e) && set_has Nat.eqb j (snd e))%bool) ix)
  = length (filter cond (keys_with ix j)).
Proof.
  intros Hnd. unfold keys_with, map_keys.
  assert (forall k s, In (k, s) ix -> map_get str_eqb k ix = Some s) as Hget
    by (intros k s; apply (In_map_get _ str_eqb_eq), Hnd).
  revert Hget. generalize ix at 1 3 5 as l.
  induction l as [|[k s] l IH]; intros Hget; simpl; [reflexivity|].
  unfold postedb at 1. rewrite (Hget k s (or_introl eq_refl)).
  assert (forall k' s', In (k', s') l -> map_get str_eqb k' ix = Some s')
    as Hget' by (intros; apply Hget; right; assumption).
  specialize (IH Hget').
  destruct (set_has Nat.eqb j s); simpl;
    destruct (cond k); simpl; rewrite ?IH; reflexivity.
Qed.

Lemma hits_score (n : nat) (d : Z) (kind : MatchKind) (o : option ScoreEntry) :
  sc_of (hits n d kind o) = (sc_of o + Z.of_nat n * d)%Z.
Proof.
  revert o; induction n as [|n IH]; intros o.
  - simpl; lia.
  - cbn [hits]. rewrite IH. unfold hit, sc_of; simpl entry_score. lia.
Qed.

Lemma hits_fields (n : nat) (d : Z) (kind : MatchKind) (o : option ScoreEntry)
    (x : MatchKind) :
  In x (fl_of (hits n d kind o)) <-> In x (fl_of o) \/ (x = kind /\ 0 < n).
Proof.
  revert o; induction n as [|n IH]; intros o.
  - simpl. split; [tauto | intros [H|[_ H]]; [exact H | lia]].
  - cbn [hits]. rewrite IH. unfold hit, fl_of at 1; simpl entry_fields.
    rewrite (set_add_In _ kind_eqb_eq). fold (fl_of o).
    split; [intros [[->|H]|[-> _]] | intros [H|[-> _]]]; auto; right; split;
      auto; lia.
Qed.

Lemma hits_has_entry (n : nat) (d : Z) (kind : MatchKind)
    (o : option ScoreEntry) :
  has_entry (hits n d kind o) = true <-> has_entry o = true \/ 0 < n.
Proof.
  revert o; induction n as [|n IH]; intros o.
  - simpl. split; [tauto | intros [H|H]; [exact H | lia]].
  - cbn [hits]. rewrite IH. unfold hit; simpl.
    split; intros _; [right; lia | left; reflexivity].
Qed.

Lemma exact_pass_get (ix : Index) (w : jsstring) (sc : Scores) (j : nat) :
  wf_index ix ->
  map_get Nat.eqb j (exact_pass ix w sc)
  = hits (rule_count ix j w exact) 10 exact (map_get Nat.eqb j sc).
Proof.
  intros [_ Hs]. unfold exact_pass, map_has, rule_count, postedb.
  destruct (map_get str_eqb w ix) as [s|] eqn:E; [|reflexivity].
  rewrite bump_all_get by apply (map_get_Forall _ str_eqb_eq w Hs E).
  destruct (set_has Nat.eqb j s); reflexivity.
Qed.

Lemma score_word_get (ix : Index) (w : jsstring) (sc : Scores) (j : nat) :
  wf_index ix ->
  map_get Nat.eqb j (score_word ix sc w)
  = hits (rule_count ix j w contains) 2 contains
      (hits (rule_count ix j w prefix) 5 prefix
         (hits (rule_count ix j w exact) 10 exact (map_get Nat.eqb j sc))).
Proof.
  intros Hwf. pose proof Hwf as [Hk Hs]. unfold score_word.
  rewrite contains_pass_scan, prefix_pass_scan.
  rewrite !scan_get, !count_entries_keys, exact_pass_get by assumption.
  reflexivity.
Qed.

Lemma score_word_keys_NoDup (ix : Index) (w : jsstring) (sc : Scores) :
  NoDup (map_keys sc) -> NoDup (map_keys (score_word ix sc w)).
Proof.
  intros H. unfold score_word.
  rewrite contains_pass_scan, prefix_pass_scan.
  do 2 apply scan_keys_NoDup. unfold exact_pass.
  destruct (map_has str_eqb w ix); [|exact H].
  destruct (map_get str_eqb w ix); [apply bump_all_keys_NoDup|]; exact H.
Qed.

Lemma accumulate_keys_NoDup (ix : Index) (ws : list jsstring) :
  NoDup (map_keys (accumulate ix ws)).
Proof.
  unfold accumulate.
  assert (NoDup (map_keys (@nil (nat * ScoreEntry)))) as H by constructor.
  revert H; generalize (@nil (nat * ScoreEntry)).
  induction ws as [|w ws IH]; intros sc H; simpl; [exact H|].
  apply IH, score_word_keys_NoDup, H.
Qed.

Lemma postedb_posted (ix : Index) (i : nat) (k : jsstring) :
  postedb ix i k = true <-> posted ix k i.
Proof.
  unfold postedb, posted.
  destruct (map_get str_eqb k ix) as [s|].
  - rewrite (set_has_In _ Nat.eqb_eq). split.
    + intros H; exists s; auto.
    + intros [s' [[= <-] H]]; exact H.
  - split; [discriminate | intros [s [H _]]; discriminate].
Qed.

Lemma keys_with_In (ix : Index) (i : nat) (k : jsstring) :
  In k (keys_with ix i) <-> posted ix k i.
Proof.
  unfold keys_with. rewrite filter_In, postedb_posted.
  split; [tauto|]. intros H; split; [|exact H].
  destruct H as [s [H _]]. apply (map_get_In _ str_eqb_eq) in H.
  change k with (fst (k, s)). apply in_map, H.
Qed.

Lemma filter_length_pos (A : Type) (f : A -> bool) (l : list A) :
  0 < length (filter f l) <-> exists x, In x l /\ f x = true.
Proof.
  split.
  - destruct (filter f l) as [|x l'] eqn:E; simpl; [lia|]. intros _.
    exists x. apply filter_In. rewrite E; left; reflexivity.
  - intros [x Hx]. apply filter_In in Hx.
    destruct (filter f l); [destruct Hx | simpl; lia].
Qed.

Lemma fires_count (ix : Index) (i : nat) (w : jsstring) (kind : MatchKind) :
  fires ix i w kind <-> 0 < rule_count ix i w kind.
Proof.
  destruct kind; simpl.
  - rewrite <- postedb_posted. destruct (postedb ix i w); split;
      auto; try lia; discriminate.
  - rewrite filter_length_pos. unfold prefix_rule.
    split; intros [k H]; exists k; rewrite keys_with_In in *;
      rewrite andb_true_iff, negb_true_iff in *.
    + destruct H as [H1 [H2 H3]]; repeat split; auto.
      destruct (str_eqb k w) eqn:E; [|reflexivity].
      apply str_eqb_eq in E; contradiction.
    + destruct H as [H1 [H2 H3]]; repeat split; auto.
      intros ->; rewrite str_eqb_refl in H3; discriminate.
  - rewrite filter_length_pos. unfold contains_rule.
    split; intros [k H]; exists k; rewrite keys_with_In in *;
      rewrite andb_true_iff, negb_true_iff in *; tauto.
Qed.

Lemma score_word_step (ix : Index) (w : jsstring) (sc : Scores) (j : nat) :
  wf_index ix ->
  let o := map_get Nat.eqb j sc in
  let o' := map_get Nat.eqb j (score_word ix sc w) in
  sc_of o' = (sc_of o + word_score ix j w)%Z
  /\ (forall kind, In kind (fl_of o') <-> In kind (fl_of o) \/ fires ix j w kind)
  /\ (has_entry o' = true
      <-> has_entry o = true \/ exists kind, fires ix j w kind).
Proof.
  intros Hwf o o'. subst o'. rewrite (score_word_get _ _ _ Hwf). fold o.
  split; [|split].
  - rewrite !hits_score. unfold word_score. lia.
  - intros kind. rewrite !hits_fields, !fires_count.
    destruct kind; intuition (try discriminate; auto).
  - rewrite !hits_has_entry. split.
    + intros [[[H|H]|H]|H]; [left; exact H | right ..].
      * exists exact; apply fires_count, H.
      * exists prefix; apply fires_count, H.
      * exists contains; apply fires_count, H.
    + intros [H|[kind H]]; [tauto|].
      apply fires_count in H. destruct kind; tauto.
Qed.

Lemma fold_score_word (ix : Index) (ws : list jsstring) (sc : Scores)
    (j : nat) :
  wf_index ix ->
  let o := map_get Nat.eqb j sc in
  let o' := map_get Nat.eqb j (fold_left (score_word ix) ws sc) in
  sc_of o' = (sc_of o + expected_score ix ws j)%Z
  /\ (forall kind,
        In kind (fl_of o') <-> In kind (fl_of o) \/ fires_for ix ws j kind)
  /\ (has_entry o' = true
      <-> has_entry o = true \/ exists kind, fires_for ix ws j kind).
Proof.
  intros Hwf. revert sc; induction ws as [|w ws IH]; intros sc; simpl.
  - split; [unfold expected_score; simpl; lia|]. split.
    + intros kind; split; [tauto|]. intros [H|[w [[] _]]]; exact H.
    + split; [tauto|]. intros [H|[kind [w [[] _]]]]; exact H.
  - destruct (IH (score_word ix sc w)) as [I1 [I2 I3]].
    destruct (score_word_step w sc j Hwf) as [S1 [S2 S3]].
    split; [|split].
    + rewrite I1, S1. unfold expected_score; simpl. lia.
    + intros kind. rewrite I2, S2. unfold fires_for; simpl. split.
      * intros [[H|H]|[w' [H1 H2]]]; eauto 6.
      * intros [H|[w' [[<-|H1] H2]]]; eauto 6.
    + rewrite I3, S3. unfold fires_for; simpl. split.
      * intros [[H|[kind H]]|[kind [w' [H1 H2]]]]; eauto 7.
      * intros [H|[kind [w' [[<-|H1] H2]]]]; eauto 7.
Qed.

(** *** Sorting *)

Lemma sort_insert_perm (A : Type) (cmp : A -> A -> Z) (x : A) (l : list A) :
  Permutation (sort_insert cmp x l) (x :: l).
Proof.
  induction l as [|y l IH]; simpl; [reflexivity|].
  destruct (cmp x y <=? 0)%Z; [reflexivity|].
  rewrite IH. apply perm_swap.
Qed.

Lemma sort_perm (A : Type) (cmp : A -> A -> Z) (l : list A) :
  Permutation (sort cmp l) l.
Proof.
  induction l as [|x l IH]; simpl; [reflexivity|].
  rewrite sort_insert_perm, IH; reflexivity.
Qed.

Lemma slice0_incl (A : Type) (e : Z) (l : list A) (x : A) :
  In x (slice0 e l) -> In x l.
Proof.
  unfold slice0. intros H.
  rewrite <- (firstn_skipn
                (Z.to_nat (if (e <? 0)%Z
                           then Z.max (Z.of_nat (length l) + e) 0
                           else Z.min e (Z.of_nat (length l)))) l).
  apply in_or_app; left; exact H.
Qed.

Lemma search_In_ranked (eng : ProblemSearchEngine) (q : jsstring) (k : Z)
    (r : SearchResult) :
  In r (search eng q k) -> In r (ranked eng q).
Proof.
  unfold search. destruct (falsy (trim q)); [intros []|apply slice0_incl].
Qed.

(** **** C1 *)

(** C1: for the engine built from [ps] and any query, the keys of the index
    are pairwise distinct and, for every position [i], the accumulated
    score is the sum over the query tokens [w] of 10 if [i] is stored under
    [w], 5 for each key holding [i] that starts with [w] and differs from
    it, and 2 for each key holding [i] that contains [w] without starting
    with it; a label is in the position's set exactly when its rule fired
    for some query token, a position has an entry exactly when some rule
    fired, and every result of [search] carries the score and labels of its
    position. *)
Theorem search_score_is_rule_sum (ps : list Problem) (query : jsstring) :
  NoDup (map_keys (buildIndex ps))
  /\ (forall i,
        map_has Nat.eqb i (accumulate (buildIndex ps) (tokenize query)) = true
        <-> exists kind, fires_for (buildIndex ps) (tokenize query) i kind)
  /\ (forall i e,
        map_get Nat.eqb i (accumulate (buildIndex ps) (tokenize query)) = Some e ->
        entry_score e = expected_score (buildIndex ps) (tokenize query) i
        /\ forall kind,
            In kind (entry_fields e)
            <-> fires_for (buildIndex ps) (tokenize query) i kind)
  /\ (forall maxResults r,
        In r (search (new ps) query maxResults) ->
        exists i,
          problem r = nth_error ps i
          /\ score r = expected_score (buildIndex ps) (tokenize query) i
          /\ forall kind,
              In kind (matchedFields r)
              <-> fires_for (buildIndex ps) (tokenize query) i kind).
Proof.
  pose proof (wf_buildIndex ps) as Hwf.
  assert (forall i e,
        map_get Nat.eqb i (accumulate (buildIndex ps) (tokenize query)) = Some e ->
        entry_score e = expected_score (buildIndex ps) (tokenize query) i
        /\ forall kind,
            In kind (entry_fields e)
            <-> fires_for (buildIndex ps) (tokenize query) i kind) as Hentry.
  { intros i e He.
    destruct (fold_score_word (tokenize query) [] i Hwf) as [H1 [H2 _]].
    unfold accumulate in He. rewrite He in H1, H2.
    unfold sc_of, fl_of in H1, H2; simpl in H1, H2. split; [lia|].
    intros kind; rewrite H2; tauto. }
  split; [exact (proj1 Hwf)|]. split; [|split; [exact Hentry|]].
  - intros i.
    destruct (fold_score_word (tokenize query) [] i Hwf) as [_ [_ H3]].
    simpl in H3. unfold map_has, accumulate.
    fold (has_entry
            (map_get Nat.eqb i
               (fold_left (score_word (buildIndex ps)) (tokenize query) []))).
    rewrite H3. split; [intros [H|H]; [discriminate | exact H] | tauto].
  - intros k r Hin. apply search_In_ranked in Hin. unfold ranked in Hin.
    simpl in Hin.
    apply (Permutation_in _ (sort_perm by_score_desc _)) in Hin.
    apply in_map_iff in Hin. destruct Hin as [[i e] [<- Hin]].
    apply (In_map_get _ Nat.eqb_eq) in Hin; [|apply accumulate_keys_NoDup].
    exists i. simpl. destruct (Hentry i e Hin) as [H1 H2]. auto.
Qed.

(** *** The order and number of results *)

Lemma sort_insert_sorted (x : SearchResult) (l : list SearchResult) :
  StronglySorted score_ge l ->
  StronglySorted score_ge (sort_insert by_score_desc x l).
Proof.
  induction 1 as [|y l Hl IH Hy]; simpl.
  - constructor; constructor.
  - unfold by_score_desc at 1.
    destruct (Z.leb_spec (score y - score x) 0) as [Hle|Hgt].
    + constructor; [constructor; assumption|].
      constructor; [unfold score_ge; lia|].
      rewrite Forall_forall in *. intros z Hz.
      specialize (Hy z Hz). unfold score_ge in *; lia.
    + constructor; [exact IH|].
      rewrite Forall_forall in *. intros z Hz.
      apply (Permutation_in _ (sort_insert_perm _ _ _)) in Hz.
      destruct Hz as [<-|Hz]; [unfold score_ge; lia | auto].
Qed.

Lemma sort_sorted (l : list SearchResult) :
  StronglySorted score_ge (sort by_score_desc l).
Proof.
  induction l as [|x l IH]; simpl; [constructor|].
  apply sort_insert_sorted, IH.
Qed.

Lemma sorted_nth_error (A : Type) (R : A -> A -> Prop) (l : list A) :
  StronglySorted R l ->
  forall i j a b,
    i < j -> nth_error l i = Some a -> nth_error l j = Some b -> R a b.
Proof.
  induction 1 as [|x l Hl IH Hx]; intros i j a b Hij Ha Hb.
  - destruct i; discriminate.
  - destruct j as [|j]; [lia|]. simpl in Hb.
    destruct i as [|i]; simpl in Ha.
    + injection Ha as <-. rewrite Forall_forall in Hx.
      apply Hx. eapply nth_error_In; eassumption.
    + apply (IH i j); [lia | assumption ..].
Qed.

Lemma nth_error_firstn_Some (A : Type) (n : nat) (l : list A) (i : nat)
    (a : A) :
  nth_error (firstn n l) i = Some a -> nth_error l i = Some a.
Proof.
  revert n l; induction i as [|i IH]; intros [|n] [|x l]; simpl;
    try discriminate; auto.
  apply IH.
Qed.

Lemma slice0_length (A : Type) (e : Z) (l : list A) :
  (0 <= e)%Z -> (Z.of_nat (length (slice0 e l)) <= e)%Z.
Proof.
  intros He. unfold slice0.
  destruct (Z.ltb_spec e 0) as [H|H]; [lia|].
  pose proof (firstn_le_length (Z.to_nat (Z.min e (Z.of_nat (length l)))) l).
  lia.
Qed.

Lemma slice0_nil (A : Type) (e : Z) : slice0 e (@nil A) = [].
Proof. unfold slice0. apply firstn_nil. Qed.

(** **** C5 *)

(** C5: in the sequence returned by [search], a result that comes before
    another one has a score at least as large. *)
Theorem search_sorted_by_score (eng : ProblemSearchEngine) (query : jsstring)
    (maxResults : Z) (i j : nat) (a b : SearchResult) :
  i < j ->
  nth_error (search eng query maxResults) i = Some a ->
  nth_error (search eng query maxResults) j = Some b ->
  (score b <= score a)%Z.
Proof.
  unfold search. destruct (falsy (trim query)).
  - intros _ H; destruct i; discriminate.
  - unfold slice0. intros Hij Ha Hb.
    apply nth_error_firstn_Some in Ha, Hb.
    exact (sorted_nth_error (sort_sorted _) Hij Ha Hb).
Qed.

(** **** C6 *)

(** C6: with a positive [maxResults], [search] returns at most [maxResults]
    results. *)
Theorem search_at_most_maxResults (eng : ProblemSearchEngine)
    (query : jsstring) (maxResults : Z) :
  (0 < maxResults)%Z ->
  (Z.of_nat (length (search eng query maxResults)) <= maxResults)%Z.
Proof.
  intros Hk. unfold search. destruct (falsy (trim query)).
  - simpl; lia.
  - apply slice0_length; lia.
Qed.

(** *** Blank queries *)

Lemma trimStart_blank (s : jsstring) :
  forallb is_space s = true -> trimStart s = [].
Proof.
  induction s as [|c s IH]; simpl; [reflexivity|].
  destruct (is_space c); simpl; [exact IH | discriminate].
Qed.

Lemma trim_blank (s : jsstring) :
  forallb is_space s = true -> falsy (trim s) = true.
Proof.
  intros H. unfold trim. rewrite (trimStart_blank _ H). reflexivity.
Qed.

(** **** C7 *)

(** C7: for a query that is empty or made of whitespace only, [search] and
    [autocomplete] return the empty sequence, for every engine (the one
    built from no record too) and every bound. *)
Theorem blank_query_empty (eng : ProblemSearchEngine) (query : jsstring)
    (n : Z) :
  forallb is_space query = true ->
  search eng query n = [] /\ autocomplete eng query n = [].
Proof.
  intros H. unfold search, autocomplete.
  rewrite (trim_blank _ H). split; reflexivity.
Qed.

(** **** C9 *)



(** **** C4 *)

(** C4: on the engine built from the records "Two Sum" (id 1, Easy, topics
    Array and Hash Table) and "Number of Islands" (id 200, Medium, topic
    Graph), [search("easy", 10)] returns the first record alone, with score
    10; [search("sum", 10)] returns the first record through an exact
    match; [autocomplete("is", 10)] returns ["Number of Islands"] alone. *)
Theorem end_to_end_scenario :
  search (new [two_sum; number_of_islands]) (str "easy") 10
  = [mkResult (Some two_sum) 10 [exact]]
  /\ search (new [two_sum; number_of_islands]) (str "sum") 10
     = [mkResult (Some two_sum) 10 [exact]]
  /\ autocomplete (new [two_sum; number_of_islands]) (str "is") 10
     = [str "Number of Islands"].
Proof. repeat split; vm_compute; reflexivity. Qed.

(** *** Queries without tokens *)

Lemma trimStart_non_space (s : jsstring) :
  non_space s -> non_space (trimStart s).
Proof.
  induction s as [|c s IH]; intros [x [Hin Hx]]; simpl.
  - destruct Hin.
  - destruct (is_space c) eqn:E.
    + apply IH. destruct Hin as [->|Hin]; [congruence|]. exists x; auto.
    + exists x; auto.
Qed.

Lemma rev_non_space (s : jsstring) : non_space s -> non_space (rev s).
Proof.
  intros [x [Hin Hx]]. exists x; split; [|exact Hx].
  apply in_rev in Hin; exact Hin.
Qed.

Lemma non_space_passes_guard (s : jsstring) :
  non_space s -> falsy (trim s) = false.
Proof.
  intros H. unfold trim.
  do 2 (apply trimStart_non_space, rev_non_space in H).
  destruct H as [x [Hin _]].
  destruct (rev (trimStart (rev (trimStart s)))); [destruct Hin | reflexivity].
Qed.

Ltac range_cases :=
  unfold is_ascii_alnum, is_lower_alnum, in_range, kelvin_sign,
    capital_i_dot in *;
  repeat match goal with
    | H : context [N.leb ?a ?b] |- _ => destruct (N.leb_spec a b)
    | |- context [N.leb ?a ?b] => destruct (N.leb_spec a b)
    | H : context [N.eqb ?a ?b] |- _ => destruct (N.eqb_spec a b)
    | |- context [N.eqb ?a ?b] => destruct (N.eqb_spec a b)
    end;
  cbn [andb orb negb] in *; try discriminate; try lia.

Lemma lower_unit_no_alnum (c : N) :
  is_ascii_alnum c = false -> c <> kelvin_sign -> c <> capital_i_dot ->
  Forall (fun c' => is_lower_alnum c' = false) (lower_unit c).
Proof.
  intros Ha Hk Hi. unfold lower_unit.
  range_cases; repeat constructor; range_cases.
Qed.

Lemma toLowerCase_no_alnum (s : jsstring) :
  Forall (fun c => is_ascii_alnum c = false /\ c <> kelvin_sign
                   /\ c <> capital_i_dot) s ->
  Forall (fun c => is_lower_alnum c = false) (toLowerCase s).
Proof.
  induction 1 as [|c s [Ha [Hk Hi]] Hs IH]; simpl; [constructor|].
  apply Forall_app; split; [apply lower_unit_no_alnum; assumption | exact IH].
Qed.

Lemma blank_non_token_blank (s : jsstring) :
  Forall (fun c => is_lower_alnum c = false) s ->
  forallb is_space (blank_non_token s) = true.
Proof.
  induction 1 as [|c s Hc Hs IH]; simpl; [reflexivity|].
  rewrite Hc, IH. simpl. destruct (is_space c) eqn:E; [rewrite E|];
    reflexivity.
Qed.

Lemma split_blank (s : jsstring) (in_sep : bool) :
  forallb is_space s = true ->
  Forall (fun w => w = []) (split_from [] in_sep s).
Proof.
  revert in_sep; induction s as [|c s IH]; intros in_sep H; simpl.
  - constructor; [reflexivity | constructor].
  - simpl in H. apply andb_true_iff in H. destruct H as [Hc Hs].
    rewrite Hc. destruct in_sep; [|constructor; [reflexivity|]]; auto.
Qed.

Lemma tokenize_blank (s : jsstring) :
  forallb is_space (blank_non_token (toLowerCase s)) = true ->
  tokenize s = [].
Proof.
  intros H. unfold tokenize, split_spaces.
  pose proof (@split_blank _ false H) as Hall.
  induction Hall as [|w l -> Hl IH]; simpl; [reflexivity | exact IH].
Qed.

Lemma search_no_tokens (eng : ProblemSearchEngine) (q : jsstring) (k : Z) :
  tokenize q = [] -> search eng q k = [].
Proof.
  intros H. unfold search, ranked. rewrite H. simpl.
  rewrite slice0_nil. destruct (falsy (trim q)); reflexivity.
Qed.

(** **** C10 *)

(** C10 does not hold as stated: the KELVIN SIGN is no ASCII letter or
    digit and no whitespace, yet [toLowerCase] turns it into [k], so the
    query made of it has the token [k] and finds the record titled K. *)
Lemma kelvin_sign_query_finds_record :
  existsb (fun c => negb (is_space c)) [kelvin_sign] = true
  /\ forallb (fun c => negb (is_ascii_alnum c)) [kelvin_sign] = true
  /\ (0 < 10)%Z
  /\ tokenize [kelvin_sign] = [str "k"]
  /\ search (new [letter_k]) [kelvin_sign] 10
     = [mkResult (Some letter_k) 10 [exact]].
Proof. repeat split; vm_compute; reflexivity. Qed.

(** C10, amended: a query with a character that is not whitespace passes
    the guard; if it has no ASCII letter or digit, and neither U+212A nor
    U+0130 (which lower case turns into ASCII letters), it has no tokens
    and [search] returns the empty sequence; and whenever a query has no
    tokens, [search] returns the empty sequence. *)
Theorem search_without_tokens (eng : ProblemSearchEngine) (query : jsstring)
    (maxResults : Z) :
  (non_space query -> falsy (trim query) = false)
  /\ (Forall (fun c => is_ascii_alnum c = false /\ c <> kelvin_sign
                       /\ c <> capital_i_dot) query ->
      tokenize query = [] /\ search eng query maxResults = [])
  /\ (tokenize query = [] -> search eng query maxResults = []).
Proof.
  split; [apply non_space_passes_guard|]. split; [|apply search_no_tokens].
  intros H.
  assert (tokenize query = []) as Ht
    by (apply tokenize_blank, blank_non_token_blank, toLowerCase_no_alnum, H).
  split; [exact Ht | apply search_no_tokens, Ht].
Qed.

(** *** Bounds that are not positive *)

Lemma slice0_zero (A : Type) (l : list A) : slice0 0 l = [].
Proof. unfold slice0. simpl. destruct (length l); reflexivity. Qed.

Lemma slice0_negative (A : Type) (e : Z) (l : list A) :
  (e < 0)%Z -> slice0 e l = drop_last (Z.to_nat (- e)) l.
Proof.
  intros He. unfold slice0, drop_last.
  destruct (Z.ltb_spec e 0) as [_|H]; [|lia].
  f_equal. lia.
Qed.

Lemma slice0_nonneg (A : Type) (e : Z) (l : list A) :
  (0 <= e)%Z -> slice0 e l = firstn (Z.to_nat e) l.
Proof.
  intros He. unfold slice0.
  destruct (Z.ltb_spec e 0) as [H|_]; [lia|].
  destruct (Z.le_gt_cases e (Z.of_nat (length l))) as [H|H].
  - rewrite Z.min_l by exact H. reflexivity.
  - rewrite Z.min_r by lia. rewrite Nat2Z.id.
    rewrite firstn_all. symmetry. apply firstn_all2. lia.
Qed.

(** **** C3 *)

(** C3 does not hold as stated: with the bound -1, [search] and
    [autocomplete] return all their entries but the last one. *)
Lemma negative_bound_keeps_results :
  (-1 <= 0)%Z
  /\ search (new [two_sum; three_sum]) (str "sum") (-1)
     = [mkResult (Some two_sum) 10 [exact]]
  /\ autocomplete (new [two_sum; three_sum]) (str "sum") (-1)
     = [str "Two Sum"].
Proof. split; [lia|]. split; vm_compute; reflexivity. Qed.

(** C3, amended: no bound is rejected.  With the bound 0 both operations
    return the empty sequence; with a negative bound [-m] they return, for
    a query that passes the guard, the ranked results (the suggestions)
    without the last [m] of them. *)
Theorem nonpositive_bound (eng : ProblemSearchEngine) (query : jsstring)
    (bound : Z) :
  (bound <= 0)%Z ->
  search eng query bound
  = (if (falsy (trim query) || (bound =? 0)%Z)%bool then []
     else drop_last (Z.to_nat (- bound)) (ranked eng query))
  /\ autocomplete eng query bound
     = (if (falsy (trim query) || (bound =? 0)%Z)%bool then []
        else drop_last (Z.to_nat (- bound)) (suggestions eng query)).
Proof.
  intros Hb. unfold search, autocomplete.
  destruct (falsy (trim query)); simpl; [split; reflexivity|].
  destruct (Z.eqb_spec bound 0) as [->|Hne].
  - rewrite !slice0_zero; split; reflexivity.
  - rewrite !slice0_negative by lia. split; reflexivity.
Qed.

(** *** Suggestions *)

Lemma titles_add_all (qL : jsstring) (ps : list Problem)
    (acc : list jsstring) :
  fold_left (fun s p => add_if_matches qL s (title p)) ps acc
  = add_all (filter (fun t => includes (toLowerCase t) qL) (map title ps)) acc.
Proof.
  unfold add_all. revert acc; induction ps as [|p ps IH]; intros acc; simpl.
  - reflexivity.
  - rewrite IH. unfold add_if_matches.
    destruct (includes (toLowerCase (title p)) qL); reflexivity.
Qed.

Lemma topics_add_all (qL : jsstring) (ps : list Problem)
    (acc : list jsstring) :
  fold_left (fun s p => fold_left (add_if_matches qL) (topics p) s) ps acc
  = add_all (filter (fun t => includes (toLowerCase t) qL)
                    (flat_map topics ps)) acc.
Proof.
  unfold add_all. revert acc; induction ps as [|p ps IH]; intros acc; simpl.
  - reflexivity.
  - rewrite IH, filter_app, fold_left_app. f_equal.
    generalize (topics p) acc. clear.
    induction l as [|t ts IH]; intros acc; simpl; [reflexivity|].
    rewrite IH. unfold add_if_matches.
    destruct (includes (toLowerCase t) qL); reflexivity.
Qed.

Lemma filter_twice (A : Type) (f g : A -> bool) (l : list A) :
  filter f (filter g l) = filter (fun x => (g x && f x)%bool) l.
Proof.
  induction l as [|x l IH]; simpl; [reflexivity|].
  destruct (g x); simpl; [destruct (f x)|]; rewrite IH; reflexivity.
Qed.

Lemma add_all_dedup (l acc : list jsstring) :
  add_all l acc
  = acc ++ filter (fun y => negb (set_has str_eqb y acc)) (dedup_first l).
Proof.
  unfold add_all. revert acc; induction l as [|x l IH]; intros acc; simpl.
  - rewrite app_nil_r; reflexivity.
  - rewrite IH, filter_twice. unfold set_add.
    destruct (set_has str_eqb x acc) eqn:E; simpl.
    + f_equal. apply filter_ext. intros y.
      destruct (str_eqb y x) eqn:F; simpl; [|reflexivity].
      apply str_eqb_eq in F; subst y. rewrite E; reflexivity.
    + rewrite <- app_assoc. simpl. do 2 f_equal. apply filter_ext. intros y.
      unfold set_has. rewrite existsb_app. simpl.
      rewrite orb_false_r, negb_orb. apply andb_comm.
Qed.

Lemma dedup_first_In (l : list jsstring) (y : jsstring) :
  In y (dedup_first l) <-> In y l.
Proof.
  induction l as [|x l IH]; simpl; [tauto|].
  rewrite filter_In, IH, negb_true_iff.
  destruct (str_eqb y x) eqn:E.
  - apply str_eqb_eq in E; subst. intuition discriminate.
  - tauto.
Qed.

Lemma dedup_first_NoDup (l : list jsstring) : NoDup (dedup_first l).
Proof.
  induction l as [|x l IH]; simpl; constructor.
  - rewrite filter_In, str_eqb_refl. intros [_ H]; discriminate.
  - apply NoDup_filter, IH.
Qed.

Lemma filter_all (A : Type) (f : A -> bool) (l : list A) :
  (forall x, f x = true) -> filter f l = l.
Proof.
  intros Hf. induction l as [|x l IH]; simpl; [reflexivity|].
  rewrite Hf, IH; reflexivity.
Qed.

Lemma add_all_nil (l : list jsstring) : add_all l [] = dedup_first l.
Proof.
  rewrite add_all_dedup. cbn [app]. apply filter_all. reflexivity.
Qed.

Lemma dedup_first_app (a b : list jsstring) :
  dedup_first (a ++ b)
  = dedup_first a
    ++ filter (fun y => negb (set_has str_eqb y a)) (dedup_first b).
Proof.
  rewrite <- (add_all_nil (a ++ b)). unfold add_all. rewrite fold_left_app.
  fold (add_all a []). fold (add_all b (add_all a [])).
  rewrite add_all_nil, add_all_dedup. f_equal.
  apply filter_ext. intros y. f_equal.
  apply eq_true_iff_eq. rewrite !(set_has_In _ str_eqb_eq).
  apply dedup_first_In.
Qed.

Lemma suggestions_dedup (eng : ProblemSearchEngine) (q : jsstring) :
  suggestions eng q
  = dedup_first (matching_titles (problems eng) q
                 ++ matching_topics (problems eng) q).
Proof.
  unfold suggestions, matching_titles, matching_topics.
  rewrite titles_add_all, topics_add_all.
  fold (matches q). unfold add_all. rewrite <- fold_left_app.
  apply add_all_nil.
Qed.

(** **** C8 *)

(** C8 does not hold as stated.  A query made of one space is not empty,
    and the title "Two Sum" contains it, yet [autocomplete] returns
    nothing; and with the bound -1 [autocomplete] returns one of two
    suggestions, which is not the first -1 entries. *)
Lemma autocomplete_space_query :
  (str " " <> []
   /\ autocomplete (new [two_sum]) (str " ") 10 = []
   /\ firstn (Z.to_nat 10)
        (dedup_first (matching_titles [two_sum] (str " ")
                      ++ matching_topics [two_sum] (str " ")))
      = [str "Two Sum"; str "Hash Table"])
  /\ (autocomplete (new [two_sum; three_sum]) (str "sum") (-1)
      = [str "Two Sum"]
      /\ firstn (Z.to_nat (-1))
           (dedup_first (matching_titles [two_sum; three_sum] (str "sum")
                         ++ matching_topics [two_sum; three_sum] (str "sum")))
         = []).
Proof.
  split; [split; [discriminate|]|]; split; vm_compute; reflexivity.
Qed.

(* ================================================================== *)
(** ** The theorems at concrete inputs *)

Lemma search_score_is_rule_sum_witness :
  map_get Nat.eqb 1
    (accumulate (buildIndex [two_sum; three_sum]) (tokenize (str "sum")))
  = Some (mkEntry 2 [contains])
  /\ expected_score (buildIndex [two_sum; three_sum]) (tokenize (str "sum")) 1
     = 2%Z.
Proof.
  assert (map_get Nat.eqb 1
            (accumulate (buildIndex [two_sum; three_sum])
                        (tokenize (str "sum")))
          = Some (mkEntry 2 [contains])) as H by (vm_compute; reflexivity).
  split; [exact H|].
  destruct (search_score_is_rule_sum [two_sum; three_sum] (str "sum"))
    as [_ [_ [Hentry _]]].
  symmetry. exact (proj1 (Hentry 1 _ H)).
Defined.

Lemma buildIndex_invariant_witness :
  posted (buildIndex [two_sum; number_of_islands]) (str "islands") 1.
Proof.
  apply (proj2 (buildIndex_invariant [two_sum; number_of_islands])).
  exists number_of_islands. split; [reflexivity|].
  left. vm_compute. tauto.
Defined.

Lemma search_sorted_by_score_witness :
  0 < 1
  /\ nth_error (search (new [two_sum; three_sum]) (str "sum") 10) 0
     = Some (mkResult (Some two_sum) 10 [exact])
  /\ nth_error (search (new [two_sum; three_sum]) (str "sum") 10) 1
     = Some (mkResult (Some three_sum) 2 [contains])
  /\ (2 <= 10)%Z.
Proof.
  assert (nth_error (search (new [two_sum; three_sum]) (str "sum") 10) 0
          = Some (mkResult (Some two_sum) 10 [exact])) as Ha
    by (vm_compute; reflexivity).
  assert (nth_error (search (new [two_sum; three_sum]) (str "sum") 10) 1
          = Some (mkResult (Some three_sum) 2 [contains])) as Hb
    by (vm_compute; reflexivity).
  split; [lia|]. split; [exact Ha|]. split; [exact Hb|].
  exact (search_sorted_by_score (new [two_sum; three_sum]) (str "sum") 10
           (Nat.lt_0_1) Ha Hb).
Defined.

Lemma search_at_most_maxResults_witness :
  (0 < 1)%Z
  /\ (Z.of_nat (length (search (new [two_sum; three_sum]) (str "sum") 1))
      <= 1)%Z.
Proof.
  split; [lia|].
  apply (search_at_most_maxResults (new [two_sum; three_sum]) (str "sum")).
  lia.
Defined.

Lemma blank_query_empty_witness :
  forallb is_space (str "  ") = true
  /\ search (new [two_sum]) (str "  ") 10 = []
  /\ autocomplete (new [two_sum]) (str "  ") 10 = [].
Proof.
  split; [reflexivity|].
  apply (blank_query_empty (new [two_sum]) (str "  ") 10). reflexivity.
Defined.

Lemma nonpositive_bound_witness :
  search (new [two_sum; three_sum]) (str "sum") (-1)
  = drop_last 1 (ranked (new [two_sum; three_sum]) (str "sum"))
  /\ autocomplete (new [two_sum; three_sum]) (str "sum") (-1)
     = drop_last 1 (suggestions (new [two_sum; three_sum]) (str "sum")).
Proof.
  apply (nonpositive_bound (new [two_sum; three_sum]) (str "sum")
           (bound := -1)).
  lia.
Defined.

Lemma search_without_tokens_witness :
  non_space (str "!!!")
  /\ falsy (trim (str "!!!")) = false
  /\ tokenize (str "!!!") = []
  /\ search (new [two_sum]) (str "!!!") 10 = [].
Proof.
  destruct (search_without_tokens (new [two_sum]) (str "!!!") 10)
    as [Hguard [Hnone _]].
  assert (non_space (str "!!!")) as Hq
    by (exists 33%N; split; [simpl; tauto | reflexivity]).
  split; [exact Hq|]. split; [exact (Hguard Hq)|].
  apply Hnone. repeat constructor; discriminate.
Defined.

(* ================================================================== *)
(** ** Further properties of the tokenizer *)

Lemma in_range_true (lo hi c : N) :
  in_range lo hi c = true <-> (lo <= c /\ c <= hi)%N.
Proof. unfold in_range. rewrite andb_true_iff, !N.leb_le. tauto. Qed.

Lemma in_range_false (lo hi c : N) :
  in_range lo hi c = false <-> (c < lo \/ hi < c)%N.
Proof. unfold in_range. rewrite andb_false_iff, !N.leb_gt. tauto. Qed.

Lemma not_space_between (c : N) :
  (33 <= c)%N -> c <> 160%N -> (c < 5760)%N -> is_space c = false.
Proof.
  intros H1 H2 H3. unfold is_space. rewrite !orb_false_iff.
  repeat split;
    first [apply N.eqb_neq; lia | apply in_range_false; lia].
Qed.

Lemma lower_alnum_bounds (c : N) :
  is_lower_alnum c = true -> (48 <= c /\ c <= 122)%N.
Proof.
  unfold is_lower_alnum. rewrite orb_true_iff, !in_range_true. lia.
Qed.

Lemma lower_unit_other (c : N) :
  in_range 65 90 c = false -> in_range 192 222 c = false ->
  c <> capital_i_dot -> c <> kelvin_sign -> lower_unit c = [c].
Proof.
  intros H1 H2 H3 H4. unfold lower_unit. rewrite H1, H2. simpl.
  apply N.eqb_neq in H3, H4. rewrite H3, H4. reflexivity.
Qed.

Lemma lower_alnum_not_space (c : N) :
  is_lower_alnum c = true -> is_space c = false.
Proof.
  intros H. apply lower_alnum_bounds in H.
  apply not_space_between; lia.
Qed.

Lemma lower_alnum_lower_unit (c : N) :
  is_lower_alnum c = true -> lower_unit c = [c].
Proof.
  intros H. unfold is_lower_alnum in H.
  rewrite orb_true_iff, !in_range_true in H.
  apply lower_unit_other; unfold capital_i_dot, kelvin_sign;
    try apply in_range_false; lia.
Qed.

Lemma split_from_chars (s cur : jsstring) (in_sep : bool) (w : jsstring)
    (c : N) :
  In w (split_from cur in_sep s) -> In c w ->
  In c cur \/ (In c s /\ is_space c = false).
Proof.
  revert cur in_sep; induction s as [|c0 s IH]; intros cur in_sep Hw Hc.
  - simpl in Hw. destruct Hw as [<-|[]]. left. apply in_rev; exact Hc.
  - simpl in Hw. destruct (is_space c0) eqn:E.
    + destruct in_sep.
      * destruct (IH _ _ Hw Hc) as [H|[H1 H2]]; [left | right; split];
          simpl; auto.
      * destruct Hw as [<-|Hw]; [left; apply in_rev; exact Hc|].
        destruct (IH _ _ Hw Hc) as [[]|[H1 H2]]. right; split; simpl; auto.
    + destruct (IH _ _ Hw Hc) as [[<-|H]|[H1 H2]].
      * right; split; [left; reflexivity | exact E].
      * left; exact H.
      * right; split; simpl; auto.
Qed.

Lemma blank_non_token_chars (s : jsstring) (c : N) :
  In c (blank_non_token s) -> is_space c = false -> is_lower_alnum c = true.
Proof.
  unfold blank_non_token. rewrite in_map_iff. intros [c0 [<- _]].
  destruct (is_lower_alnum c0) eqn:E; simpl; [intros _; exact E|].
  destruct (is_space c0) eqn:F; [rewrite F|]; discriminate.
Qed.

Lemma tokenize_In_shape (text w : jsstring) :
  In w (tokenize text) -> w <> [] /\ forallb is_lower_alnum w = true.
Proof.
  unfold tokenize, split_spaces. rewrite filter_In. intros [Hw Hlen]. split.
  - intros ->; discriminate.
  - apply forallb_forall. intros c Hc.
    destruct (split_from_chars _ _ _ _ c Hw Hc) as [[]|[H1 H2]].
    exact (blank_non_token_chars _ _ H1 H2).
Qed.

Lemma split_from_no_space (s cur : jsstring) :
  forallb is_lower_alnum s = true ->
  split_from cur false s = [rev cur ++ s].
Proof.
  revert cur; induction s as [|c s IH]; intros cur H; simpl.
  - rewrite app_nil_r; reflexivity.
  - simpl in H. apply andb_true_iff in H. destruct H as [Hc Hs].
    rewrite (lower_alnum_not_space _ Hc), (IH _ Hs). simpl.
    rewrite <- app_assoc. reflexivity.
Qed.

Lemma toLowerCase_lower_alnum (w : jsstring) :
  forallb is_lower_alnum w = true -> toLowerCase w = w.
Proof.
  induction w as [|c w IH]; simpl; [reflexivity|].
  intros H. apply andb_true_iff in H. destruct H as [Hc Hw].
  rewrite (lower_alnum_lower_unit _ Hc), (IH Hw). reflexivity.
Qed.

Lemma blank_non_token_lower_alnum (w : jsstring) :
  forallb is_lower_alnum w = true -> blank_non_token w = w.
Proof.
  induction w as [|c w IH]; simpl; [reflexivity|].
  intros H. apply andb_true_iff in H. destruct H as [Hc Hw].
  rewrite Hc. simpl. f_equal. exact (IH Hw).
Qed.

(** X1: every token that [tokenize] returns is non-empty and made of the
    characters [a-z] and [0-9] only, whatever the text. *)
Theorem tokenize_tokens_shape (text : jsstring) :
  Forall (fun w => w <> [] /\ forallb is_lower_alnum w = true)
         (tokenize text).
Proof. apply Forall_forall. intros w. apply tokenize_In_shape. Qed.

(** X2: a token is left alone by [tokenize]: tokenizing a token of any text
    gives back that token and nothing else. *)
Theorem tokenize_token_fixed (text w : jsstring) :
  In w (tokenize text) -> tokenize w = [w].
Proof.
  intros H. destruct (tokenize_In_shape _ _ H) as [Hne Hw].
  unfold tokenize, split_spaces.
  rewrite (toLowerCase_lower_alnum _ Hw), (blank_non_token_lower_alnum _ Hw).
  rewrite (split_from_no_space _ [] Hw). simpl.
  destruct w; [contradiction | reflexivity].
Qed.

Lemma lower_unit_cases (c : N) :
  ((65 <= c /\ c <= 90)%N /\ lower_unit c = [(c + 32)%N])
  \/ ((192 <= c /\ c <= 222)%N /\ c <> 215%N
      /\ lower_unit c = [(c + 32)%N])
  \/ (c = capital_i_dot /\ lower_unit c = [105; 775]%N)
  \/ (c = kelvin_sign /\ lower_unit c = [107%N])
  \/ (in_range 65 90 c = false
      /\ (in_range 192 222 c && negb (N.eqb c 215))%bool = false
      /\ c <> capital_i_dot /\ c <> kelvin_sign /\ lower_unit c = [c]).
Proof.
  unfold lower_unit.
  destruct (in_range 65 90 c) eqn:E1.
  { left. apply in_range_true in E1. auto. }
  destruct (in_range 192 222 c && negb (N.eqb c 215))%bool eqn:E2.
  { right; left. apply andb_true_iff in E2. destruct E2 as [E2 E2'].
    apply in_range_true in E2. apply negb_true_iff, N.eqb_neq in E2'. auto. }
  destruct (N.eqb_spec c capital_i_dot) as [E3|E3]; [auto|].
  destruct (N.eqb_spec c kelvin_sign) as [E4|E4]; [auto 6|].
  do 4 right. auto.
Qed.

Lemma lower_unit_idempotent (c : N) :
  flat_map lower_unit (lower_unit c) = lower_unit c.
Proof.
  destruct (lower_unit_cases c)
    as [[H ->]|[[H [H' ->]]|[[-> ->]|[[-> ->]|[H1 [H2 [H3 [H4 E]]]]]]]].
  - cbn [flat_map]; rewrite app_nil_r.
    apply lower_unit_other; unfold capital_i_dot, kelvin_sign;
      try apply in_range_false; lia.
  - cbn [flat_map]; rewrite app_nil_r.
    apply lower_unit_other; unfold capital_i_dot, kelvin_sign;
      try apply in_range_false; lia.
  - reflexivity.
  - reflexivity.
  - rewrite E. cbn [flat_map]. rewrite app_nil_r. exact E.
Qed.

Lemma toLowerCase_idempotent (s : jsstring) :
  toLowerCase (toLowerCase s) = toLowerCase s.
Proof.
  unfold toLowerCase. induction s as [|c s IH]; simpl; [reflexivity|].
  rewrite flat_map_app, IH, lower_unit_idempotent. reflexivity.
Qed.

Lemma lower_unit_blank (c : N) :
  forallb is_space (lower_unit c) = is_space c.
Proof.
  destruct (lower_unit_cases c)
    as [[H ->]|[[H [H' ->]]|[[-> ->]|[[-> ->]|[_ [_ [_ [_ ->]]]]]]]].
  - cbn [forallb]. rewrite andb_true_r, !not_space_between by lia.
    reflexivity.
  - cbn [forallb]. rewrite andb_true_r, !not_space_between by lia.
    reflexivity.
  - reflexivity.
  - reflexivity.
  - cbn [forallb]. apply andb_true_r.
Qed.

Lemma toLowerCase_blank (s : jsstring) :
  forallb is_space (toLowerCase s) = forallb is_space s.
Proof.
  unfold toLowerCase. induction s as [|c s IH]; simpl; [reflexivity|].
  rewrite forallb_app, IH, lower_unit_blank. reflexivity.
Qed.

Lemma trimStart_nil_blank (s : jsstring) :
  trimStart s = [] -> forallb is_space s = true.
Proof.
  induction s as [|c s IH]; simpl; [reflexivity|].
  destruct (is_space c); simpl; [exact IH | discriminate].
Qed.

Lemma trimStart_blank_iff (s : jsstring) :
  forallb is_space (trimStart s) = forallb is_space s.
Proof.
  induction s as [|c s IH]; simpl; [reflexivity|].
  destruct (is_space c) eqn:E; simpl; [exact IH | rewrite E; reflexivity].
Qed.

Lemma forallb_rev (A : Type) (f : A -> bool) (l : list A) :
  forallb f (rev l) = forallb f l.
Proof.
  induction l as [|x l IH]; simpl; [reflexivity|].
  rewrite forallb_app, IH. simpl. rewrite andb_true_r. apply andb_comm.
Qed.

(** The guard of [search] and [autocomplete] is passed exactly by the
    queries that have a character that is not whitespace. *)
Lemma falsy_trim (s : jsstring) : falsy (trim s) = forallb is_space s.
Proof.
  destruct (forallb is_space s) eqn:E; [apply trim_blank, E|].
  unfold trim.
  destruct (rev (trimStart (rev (trimStart s)))) as [|c l] eqn:F;
    [|reflexivity].
  apply (f_equal (@rev N)) in F. rewrite rev_involutive in F. simpl in F.
  apply trimStart_nil_blank in F.
  rewrite forallb_rev, trimStart_blank_iff in F. congruence.
Qed.

(** X3: [search] does not see the case of the query: the query in lower
    case gets the same results, for every engine and bound. *)
Theorem search_ignores_case (eng : ProblemSearchEngine) (query : jsstring)
    (maxResults : Z) :
  tokenize (toLowerCase query) = tokenize query
  /\ search eng (toLowerCase query) maxResults = search eng query maxResults.
Proof.
  assert (tokenize (toLowerCase query) = tokenize query) as Ht
    by (unfold tokenize; rewrite toLowerCase_idempotent; reflexivity).
  split; [exact Ht|]. unfold search, ranked.
  rewrite !falsy_trim, toLowerCase_blank, Ht. reflexivity.
Qed.

(* ================================================================== *)
(** ** Further properties of the index and of [search] *)

Lemma posted_buildIndex (ps : list Problem) (t : jsstring) (i : nat) :
  posted (buildIndex ps) t i
  <-> exists p, nth_error ps i = Some p /\ indexed_under p t.
Proof.
  unfold buildIndex. rewrite posted_index_from, Nat.sub_0_r. split.
  - intros [[s [H _]]|[_ H]]; [discriminate | exact H].
  - intros H; right; split; [lia | exact H].
Qed.

Lemma tokenize_difficulty_name (d : Difficulty) :
  tokenize (difficulty_name d) = [toLowerCase (difficulty_name d)].
Proof. destruct d; reflexivity. Qed.

Lemma record_text_posted (ps : list Problem) (i : nat) (p : Problem)
    (s w : jsstring) :
  nth_error ps i = Some p -> record_text p s -> In w (tokenize s) ->
  posted (buildIndex ps) w i.
Proof.
  intros Hp Hs Hw. apply posted_buildIndex. exists p. split; [exact Hp|].
  unfold indexed_under. destruct Hs as [-> | [Hs | ->]].
  - left; exact Hw.
  - right; left. exists s; auto.
  - rewrite tokenize_difficulty_name in Hw. destruct Hw as [<-|[]].
    right; right; left; reflexivity.
Qed.

Lemma word_score_nonneg (ix : Index) (i : nat) (w : jsstring) :
  (0 <= word_score ix i w)%Z.
Proof. unfold word_score. lia. Qed.

Lemma word_score_fires (ix : Index) (i : nat) (w : jsstring)
    (kind : MatchKind) :
  fires ix i w kind -> (2 <= word_score ix i w)%Z.
Proof.
  intros H. apply fires_count in H. unfold word_score.
  destruct kind; lia.
Qed.

Lemma word_score_exact (ix : Index) (i : nat) (w : jsstring) :
  posted ix w i -> (10 <= word_score ix i w)%Z.
Proof.
  intros H. apply (fires_count ix i w exact) in H. unfold word_score. lia.
Qed.

Lemma expected_score_nonneg (ix : Index) (ws : list jsstring) (i : nat) :
  (0 <= expected_score ix ws i)%Z.
Proof.
  unfold expected_score. induction ws as [|w ws IH]; simpl; [lia|].
  pose proof (word_score_nonneg ix i w). lia.
Qed.

Lemma expected_score_fires (ix : Index) (ws : list jsstring) (i : nat)
    (kind : MatchKind) :
  fires_for ix ws i kind -> (2 <= expected_score ix ws i)%Z.
Proof.
  intros [w [Hin Hf]]. unfold expected_score.
  induction ws as [|w' ws IH]; simpl; [destruct Hin|].
  destruct Hin as [->|Hin].
  - pose proof (word_score_fires _ _ _ _ Hf).
    pose proof (expected_score_nonneg ix ws i) as H0.
    unfold expected_score in H0. lia.
  - pose proof (word_score_nonneg ix i w'). specialize (IH Hin). lia.
Qed.

Lemma expected_score_exact (ix : Index) (ws : list jsstring) (i : nat) :
  (forall w, In w ws -> posted ix w i) ->
  (10 * Z.of_nat (length ws) <= expected_score ix ws i)%Z.
Proof.
  unfold expected_score. induction ws as [|w ws IH]; intros H.
  - simpl; lia.
  - pose proof (word_score_exact (H w (or_introl eq_refl))).
    assert (forall w', In w' ws -> posted ix w' i) as H'
      by (intros; apply H; right; assumption).
    specialize (IH H').
    change (sumZ (map (word_score ix i) (w :: ws)))
      with (word_score ix i w + sumZ (map (word_score ix i) ws))%Z.
    change (length (w :: ws)) with (S (length ws)). lia.
Qed.

(** The entry of a position when the loop over the query words is over. *)
Lemma accumulate_get (ix : Index) (ws : list jsstring) (i : nat) :
  wf_index ix ->
  (has_entry (map_get Nat.eqb i (accumulate ix ws)) = true
   <-> exists kind, fires_for ix ws i kind)
  /\ (forall e,
        map_get Nat.eqb i (accumulate ix ws) = Some e ->
        entry_score e = expected_score ix ws i
        /\ forall kind, In kind (entry_fields e) <-> fires_for ix ws i kind).
Proof.
  intros Hwf.
  destruct (fold_score_word ws [] i Hwf) as [H1 [H2 H3]].
  unfold accumulate. simpl in H1, H2, H3. split.
  - rewrite H3. split; [intros [H|H]; [discriminate | exact H] | tauto].
  - intros e He. rewrite He in H1, H2.
    unfold sc_of, fl_of in H1, H2; simpl in H1, H2. split; [lia|].
    intros kind; rewrite H2; tauto.
Qed.

Lemma fires_posted (ix : Index) (i : nat) (w : jsstring) (kind : MatchKind) :
  fires ix i w kind -> exists k, posted ix k i.
Proof.
  destruct kind; simpl.
  - intros H; exists w; exact H.
  - intros [k [H _]]; exists k; exact H.
  - intros [k [H _]]; exists k; exact H.
Qed.

(** A position with an entry is the position of a record. *)
Lemma accumulate_position (ps : list Problem) (ws : list jsstring) (i : nat)
    (e : ScoreEntry) :
  map_get Nat.eqb i (accumulate (buildIndex ps) ws) = Some e ->
  exists p, nth_error ps i = Some p.
Proof.
  intros He.
  destruct (accumulate_get ws i (wf_buildIndex ps)) as [Hhas _].
  rewrite He in Hhas. destruct (proj1 Hhas eq_refl) as [kind [w [_ Hf]]].
  destruct (fires_posted _ _ _ _ Hf) as [k Hk].
  apply posted_buildIndex in Hk. destruct Hk as [p [Hp _]]. eauto.
Qed.

Definition fields_NoDup (sc : Scores) : Prop :=
  Forall (fun e : nat * ScoreEntry => NoDup (entry_fields (snd e))) sc.

Lemma bump_fields_NoDup (d : Z) (kind : MatchKind) (sc : Scores) (i : nat) :
  fields_NoDup sc -> fields_NoDup (bump d kind sc i).
Proof.
  unfold fields_NoDup. intros H. unfold bump, map_has.
  destruct (map_get Nat.eqb i sc) as [e|] eqn:E.
  - rewrite E. apply map_set_Forall; [exact H|]. simpl.
    apply (set_add_NoDup _ kind_eqb_eq).
    exact (map_get_Forall _ Nat.eqb_eq i H E).
  - rewrite (map_get_set _ Nat.eqb_eq), Nat.eqb_refl.
    apply map_set_Forall.
    + apply map_set_Forall; [exact H | constructor].
    + simpl. apply (set_add_NoDup _ kind_eqb_eq). constructor.
Qed.

Lemma bump_all_fields_NoDup (d : Z) (kind : MatchKind) (s : list nat)
    (sc : Scores) :
  fields_NoDup sc -> fields_NoDup (bump_all d kind s sc).
Proof.
  unfold bump_all. revert sc; induction s as [|i s IH]; intros sc H; simpl.
  - exact H.
  - apply IH, bump_fields_NoDup, H.
Qed.

Lemma scan_fields_NoDup (cond : jsstring -> bool) (d : Z) (kind : MatchKind)
    (l : Index) (sc : Scores) :
  fields_NoDup sc -> fields_NoDup (scan cond d kind l sc).
Proof.
  unfold scan. revert sc; induction l as [|[k s] l IH]; intros sc H; simpl.
  - exact H.
  - apply IH. destruct (cond k); [apply bump_all_fields_NoDup|]; exact H.
Qed.

Lemma accumulate_fields_NoDup (ix : Index) (ws : list jsstring) :
  fields_NoDup (accumulate ix ws).
Proof.
  unfold accumulate.
  assert (fields_NoDup []) as H by constructor.
  revert H; generalize (@nil (nat * ScoreEntry)).
  induction ws as [|w ws IH]; intros sc H; simpl; [exact H|].
  apply IH. unfold score_word.
  rewrite contains_pass_scan, prefix_pass_scan.
  do 2 apply scan_fields_NoDup. unfold exact_pass.
  destruct (map_has str_eqb w ix); [|exact H].
  destruct (map_get str_eqb w ix); [apply bump_all_fields_NoDup|]; exact H.
Qed.

(** The results before [slice] are the entries of the scores map. *)
Lemma ranked_In (ps : list Problem) (q : jsstring) (r : SearchResult) :
  In r (ranked (new ps) q)
  <-> exists i e,
        map_get Nat.eqb i (accumulate (buildIndex ps) (tokenize q)) = Some e
        /\ r = to_result ps (i, e).
Proof.
  unfold ranked. simpl. split.
  - intros Hin.
    apply (Permutation_in _ (sort_perm by_score_desc _)) in Hin.
    apply in_map_iff in Hin. destruct Hin as [[i e] [<- Hin]].
    apply (In_map_get _ Nat.eqb_eq) in Hin; [|apply accumulate_keys_NoDup].
    eauto.
  - intros [i [e [He ->]]].
    apply (Permutation_in _ (Permutation_sym (sort_perm by_score_desc _))).
    apply in_map_iff. exists (i, e). split; [reflexivity|].
    apply (map_get_In _ Nat.eqb_eq), He.
Qed.

(** X4: every result of [search] holds a record of the engine (never
    [undefined]), a score of at least 2, and a set of labels that is not
    empty and has no label twice. *)
Theorem search_results_well_formed (ps : list Problem) (query : jsstring)
    (maxResults : Z) (r : SearchResult) :
  In r (search (new ps) query maxResults) ->
  (exists i p, nth_error ps i = Some p /\ problem r = Some p)
  /\ (2 <= score r)%Z
  /\ matchedFields r <> []
  /\ NoDup (matchedFields r).
Proof.
  intros Hin. apply search_In_ranked, ranked_In in Hin.
  destruct Hin as [i [e [He ->]]]. simpl.
  destruct (accumulate_get (tokenize query) i (wf_buildIndex ps))
    as [Hhas Hentry].
  rewrite He in Hhas. destruct (proj1 Hhas eq_refl) as [kind Hf].
  destruct (Hentry e He) as [Hs Hl].
  destruct (accumulate_position _ _ _ He) as [p Hp].
  split; [exists i, p; split; [exact Hp | exact Hp]|].
  split; [rewrite Hs; exact (expected_score_fires Hf)|].
  split.
  - apply Hl in Hf. intros E; rewrite E in Hf; destruct Hf.
  - pose proof (accumulate_fields_NoDup (buildIndex ps) (tokenize query)) as H.
    exact (map_get_Forall _ Nat.eqb_eq i H He).
Qed.

Lemma slice0_length_le (A : Type) (e : Z) (l : list A) :
  length (slice0 e l) <= length l.
Proof. unfold slice0. rewrite length_firstn. lia. Qed.

Lemma accumulate_length (ps : list Problem) (ws : list jsstring) :
  length (accumulate (buildIndex ps) ws) <= length ps.
Proof.
  rewrite <- (length_map fst). fold (map_keys (accumulate (buildIndex ps) ws)).
  rewrite <- (length_seq (length ps) 0).
  apply NoDup_incl_length; [apply accumulate_keys_NoDup|].
  intros i Hi. unfold map_keys in Hi. apply in_map_iff in Hi.
  destruct Hi as [[i' e] [<- Hin]]. simpl.
  apply (In_map_get _ Nat.eqb_eq) in Hin; [|apply accumulate_keys_NoDup].
  destruct (accumulate_position _ _ _ Hin) as [p Hp].
  apply in_seq. split; [lia|]. simpl. apply nth_error_Some. congruence.
Qed.

Lemma ranked_length (eng : ProblemSearchEngine) (q : jsstring) :
  length (ranked eng q) = length (accumulate (index eng) (tokenize q)).
Proof.
  unfold ranked. rewrite (Permutation_length (sort_perm by_score_desc _)).
  apply length_map.
Qed.

(** X5: [search] never returns more results than the engine has records,
    whatever the bound. *)
Theorem search_at_most_one_per_record (ps : list Problem) (query : jsstring)
    (maxResults : Z) :
  length (search (new ps) query maxResults) <= length ps.
Proof.
  unfold search. destruct (falsy (trim query)); [simpl; lia|].
  pose proof (slice0_length_le maxResults (ranked (new ps) query)).
  rewrite ranked_length in H. simpl in H.
  pose proof (accumulate_length ps (tokenize query)). lia.
Qed.

(** X6: a larger bound only adds results at the end: with
    [0 <= k <= k'], what [search] and [autocomplete] return for [k] are the
    first [k] entries of what they return for [k']. *)
Theorem larger_bound_extends (eng : ProblemSearchEngine) (query : jsstring)
    (k k' : Z) :
  (0 <= k <= k')%Z ->
  search eng query k = firstn (Z.to_nat k) (search eng query k')
  /\ autocomplete eng query k
     = firstn (Z.to_nat k) (autocomplete eng query k').
Proof.
  intros Hk. unfold search, autocomplete.
  destruct (falsy (trim query)); [rewrite !firstn_nil; split; reflexivity|].
  rewrite !slice0_nonneg, !firstn_firstn by lia.
  replace (Nat.min (Z.to_nat k) (Z.to_nat k')) with (Z.to_nat k) by lia.
  split; reflexivity.
Qed.

Lemma blank_non_token_space (s : jsstring) :
  forallb is_space s = true -> forallb is_space (blank_non_token s) = true.
Proof.
  induction s as [|c s IH]; simpl; [reflexivity|].
  intros H. apply andb_true_iff in H. destruct H as [Hc Hs].
  rewrite Hc, orb_true_r, Hc, (IH Hs). reflexivity.
Qed.

Lemma tokens_pass_guard (s : jsstring) :
  tokenize s <> [] -> falsy (trim s) = false.
Proof.
  intros H. rewrite falsy_trim.
  destruct (forallb is_space s) eqn:E; [|reflexivity].
  elim H. apply tokenize_blank, blank_non_token_space.
  rewrite toLowerCase_blank. exact E.
Qed.

Lemma slice0_cons_positive (A : Type) (e : Z) (x : A) (l : list A) :
  (0 < e)%Z -> exists rest, slice0 e (x :: l) = x :: rest.
Proof.
  intros He. rewrite slice0_nonneg by lia.
  destruct (Z.to_nat e) as [|n] eqn:E; [lia|]. simpl. eauto.
Qed.

Lemma slice0_all (A : Type) (e : Z) (l : list A) :
  (Z.of_nat (length l) <= e)%Z -> slice0 e l = l.
Proof.
  intros He. rewrite slice0_nonneg by lia. apply firstn_all2. lia.
Qed.

(** The entry of a record for a query that is one of its texts. *)
Lemma own_text_entry (ps : list Problem) (i : nat) (p : Problem)
    (s : jsstring) :
  nth_error ps i = Some p -> record_text p s -> tokenize s <> [] ->
  exists e,
    map_get Nat.eqb i (accumulate (buildIndex ps) (tokenize s)) = Some e
    /\ (10 * Z.of_nat (length (tokenize s)) <= entry_score e)%Z
    /\ In exact (entry_fields e).
Proof.
  intros Hp Hs Hne.
  assert (forall w, In w (tokenize s) -> posted (buildIndex ps) w i) as Hall
    by (intros w; apply (@record_text_posted ps i p s w Hp Hs)).
  assert (fires_for (buildIndex ps) (tokenize s) i exact) as Hf.
  { destruct (tokenize s) as [|w ws]; [contradiction|].
    exists w. split; [left; reflexivity|]. apply Hall. left; reflexivity. }
  destruct (accumulate_get (tokenize s) i (wf_buildIndex ps))
    as [Hhas Hentry].
  destruct (map_get Nat.eqb i (accumulate (buildIndex ps) (tokenize s)))
    as [e|] eqn:E.
  - exists e. destruct (Hentry e eq_refl) as [Hsc Hl].
    split; [reflexivity|]. split; [|apply Hl, Hf].
    rewrite Hsc. apply expected_score_exact, Hall.
  - destruct Hhas as [_ Hhas]. discriminate Hhas. exists exact; exact Hf.
Qed.

Lemma ranked_head_max (eng : ProblemSearchEngine) (q : jsstring)
    (r : SearchResult) :
  In r (ranked eng q) ->
  exists h t, ranked eng q = h :: t /\ (score r <= score h)%Z.
Proof.
  intros Hin. pose proof (sort_sorted
    (map (to_result (problems eng)) (accumulate (index eng) (tokenize q))))
    as Hs.
  fold (ranked eng q) in Hs.
  destruct (ranked eng q) as [|h t]; [destruct Hin|].
  exists h, t. split; [reflexivity|].
  destruct Hin as [<-|Hin]; [lia|].
  apply StronglySorted_inv in Hs. destruct Hs as [_ Hh].
  rewrite Forall_forall in Hh. exact (Hh r Hin).
Qed.

Lemma own_text_search (ps : list Problem) (i : nat) (p : Problem)
    (s : jsstring) (k : Z) :
  nth_error ps i = Some p -> record_text p s -> tokenize s <> [] ->
  (0 < k)%Z ->
  exists r rest,
    search (new ps) s k = r :: rest
    /\ (10 * Z.of_nat (length (tokenize s)) <= score r)%Z.
Proof.
  intros Hp Hs Hne Hk.
  destruct (@own_text_entry ps i p s Hp Hs Hne) as [e [He [Hsc _]]].
  assert (In (to_result ps (i, e)) (ranked (new ps) s)) as Hin
    by (apply ranked_In; eauto).
  destruct (@ranked_head_max (new ps) s _ Hin) as [h [t [Hr Hh]]].
  unfold search. rewrite (@tokens_pass_guard s Hne), Hr.
  destruct (@slice0_cons_positive _ k h t Hk) as [rest ->].
  exists h, rest. split; [reflexivity|]. simpl in Hh. lia.
Qed.

(** X7: a query that is the title of a record, one of its topics or its
    difficulty name, and has [n > 0] tokens, gives that record an entry
    with a score of at least [10 * n] and the label exact; with a positive
    bound the first result of [search] has a score of at least [10 * n],
    and with a bound of at least the number of records the record itself
    is among the results. *)
Theorem own_text_finds_record (ps : list Problem) (i : nat) (p : Problem)
    (s : jsstring) (maxResults : Z) :
  nth_error ps i = Some p -> record_text p s -> tokenize s <> [] ->
  (0 < maxResults)%Z ->
  (exists e,
     map_get Nat.eqb i (accumulate (buildIndex ps) (tokenize s)) = Some e
     /\ (10 * Z.of_nat (length (tokenize s)) <= entry_score e)%Z
     /\ In exact (entry_fields e))
  /\ (exists r rest,
        search (new ps) s maxResults = r :: rest
        /\ (10 * Z.of_nat (length (tokenize s)) <= score r)%Z)
  /\ ((Z.of_nat (length ps) <= maxResults)%Z ->
      exists r,
        In r (search (new ps) s maxResults)
        /\ problem r = Some p
        /\ (10 * Z.of_nat (length (tokenize s)) <= score r)%Z
        /\ In exact (matchedFields r)).
Proof.
  intros Hp Hs Hne Hk.
  split; [exact (@own_text_entry ps i p s Hp Hs Hne)|].
  split; [exact (@own_text_search ps i p s maxResults Hp Hs Hne Hk)|].
  intros Hall. destruct (@own_text_entry ps i p s Hp Hs Hne) as [e [He [Hsc Hl]]].
  exists (to_result ps (i, e)). simpl.
  split; [|split; [exact Hp | split; assumption]].
  unfold search. rewrite (@tokens_pass_guard s Hne).
  rewrite slice0_all.
  - apply ranked_In. eauto.
  - rewrite ranked_length. simpl.
    pose proof (accumulate_length ps (tokenize s)). lia.
Qed.

Lemma sort_insert_filter (s : Z) (x : SearchResult) (l : list SearchResult) :
  filter (has_score s) (sort_insert by_score_desc x l)
  = filter (has_score s) (x :: l).
Proof.
  induction l as [|y l IH]; [reflexivity|].
  cbn [sort_insert]. unfold by_score_desc at 1.
  destruct (Z.leb_spec (score y - score x) 0) as [Hle|Hgt]; [reflexivity|].
  cbn [filter] in *. rewrite IH. unfold has_score.
  destruct (Z.eqb_spec (score x) s), (Z.eqb_spec (score y) s);
    try reflexivity. lia.
Qed.

Lemma sort_filter (s : Z) (l : list SearchResult) :
  filter (has_score s) (sort by_score_desc l) = filter (has_score s) l.
Proof.
  induction l as [|x l IH]; [reflexivity|].
  cbn [sort]. rewrite sort_insert_filter. cbn [filter]. rewrite IH.
  reflexivity.
Qed.

Lemma slice0_filter_prefix (A : Type) (f : A -> bool) (e : Z) (l : list A) :
  exists rest, filter f l = filter f (slice0 e l) ++ rest.
Proof.
  unfold slice0.
  set (n := Z.to_nat (if (e <? 0)%Z
                      then Z.max (Z.of_nat (length l) + e) 0
                      else Z.min e (Z.of_nat (length l)))).
  exists (filter f (skipn n l)).
  rewrite <- filter_app, firstn_skipn. reflexivity.
Qed.

(** X8: results of equal score keep the order in which their positions
    entered the scores map: for every score [s], the results with score [s]
    are, before [slice], the entries of the scores map with score [s] in
    the order of the map, and what [search] returns of them is a prefix of
    that. *)
Theorem equal_scores_keep_order (eng : ProblemSearchEngine)
    (query : jsstring) (maxResults : Z) (s : Z) :
  filter (has_score s) (ranked eng query)
  = filter (has_score s)
      (map (to_result (problems eng))
           (accumulate (index eng) (tokenize query)))
  /\ exists rest,
       filter (has_score s)
         (map (to_result (problems eng))
              (accumulate (index eng) (tokenize query)))
       = filter (has_score s) (search eng query maxResults) ++ rest.
Proof.
  split; [apply sort_filter|].
  unfold search. destruct (falsy (trim query)).
  - simpl. eauto.
  - rewrite <- (sort_filter s). fold (ranked eng query).
    apply slice0_filter_prefix.
Qed.

Lemma accumulate_empty_index (ws : list jsstring) : accumulate [] ws = [].
Proof.
  unfold accumulate. induction ws as [|w ws IH]; simpl; [reflexivity|].
  exact IH.
Qed.

(** X9: the engine built from no record answers every query with the
    empty sequence and reports zero everywhere. *)
Theorem empty_engine (query : jsstring) (bound : Z) :
  search (new []) query bound = []
  /\ autocomplete (new []) query bound = []
  /\ getStats (new []) = mkStats 0 0 (mkCounts 0 0 0).
Proof.
  split; [|split; [|reflexivity]].
  - unfold search, ranked. simpl. rewrite accumulate_empty_index. simpl.
    rewrite slice0_nil. destruct (falsy (trim query)); reflexivity.
  - unfold autocomplete, suggestions. simpl.
    rewrite slice0_nil. destruct (falsy (trim query)); reflexivity.
Qed.

(** X10: [getStats] reports an index without keys exactly when the engine
    has no records. *)
Theorem index_empty_iff_no_records (ps : list Problem) :
  indexSize (getStats (new ps)) = 0 <-> totalProblems (getStats (new ps)) = 0.
Proof.
  simpl. unfold map_size. destruct ps as [|p ps]; [simpl; tauto|].
  split; [|discriminate]. intros H.
  assert (posted (buildIndex (p :: ps)) (frontend_id p) 0) as Hp.
  { apply posted_buildIndex. exists p. split; [reflexivity|].
    unfold indexed_under. tauto. }
  destruct Hp as [s [Hs _]].
  destruct (buildIndex (p :: ps)); [discriminate Hs | discriminate H].
Qed.

(* ================================================================== *)
(** ** Further properties of [autocomplete] *)

Lemma lower_unit_not_nil (c : N) : lower_unit c <> [].
Proof.
  destruct (lower_unit_cases c)
    as [[_ ->]|[[_ [_ ->]]|[[_ ->]|[[_ ->]|[_ [_ [_ [_ ->]]]]]]]];
    discriminate.
Qed.

Lemma toLowerCase_nil (s : jsstring) : toLowerCase s = [] -> s = [].
Proof.
  destruct s as [|c s]; [reflexivity|]. simpl. intros H.
  apply app_eq_nil in H. destruct H as [H _].
  elim (lower_unit_not_nil c H).
Qed.

Lemma NoDup_firstn (A : Type) (n : nat) (l : list A) :
  NoDup l -> NoDup (firstn n l).
Proof.
  intros H. rewrite <- (firstn_skipn n l) in H.
  exact (NoDup_app_remove_r _ _ H).
Qed.


Lemma autocomplete_NoDup (eng : ProblemSearchEngine) (q : jsstring) (k : Z) :
  NoDup (autocomplete eng q k).
Proof.
  unfold autocomplete. destruct (falsy (trim q)); [constructor|].
  unfold slice0. apply NoDup_firstn. rewrite suggestions_dedup.
  apply dedup_first_NoDup.
Qed.

(* ================================================================== *)
(** ** The page *)













(** X14: typing a value of fewer than two code units, or of whitespace
    only, empties the suggestions and closes their list, whether the
    records are loaded or not, and leaves the results as they were. *)
Theorem short_or_blank_input_closes_suggestions
    (searchEngine : option ProblemSearchEngine) (value : jsstring)
    (st : Home.State) :
  length value < 2 \/ forallb is_space value = true ->
  Home.suggestions (Home.handleInputChange searchEngine value st) = []
  /\ Home.showSuggestions (Home.handleInputChange searchEngine value st)
     = false
  /\ Home.results (Home.handleInputChange searchEngine value st)
     = Home.results st
  /\ Home.query (Home.handleInputChange searchEngine value st) = value.
Proof.
  intros H. unfold Home.handleInputChange.
  destruct searchEngine as [eng|]; [|simpl; auto].
  destruct (Nat.leb_spec 2 (length value)) as [Hlen|Hlen]; [|simpl; auto].
  destruct H as [H|H]; [lia|].
  unfold autocomplete. rewrite falsy_trim, H. simpl. auto.
Qed.

(** X15: a search (the button or the Enter key) with a query that is empty
    or made of whitespace only, or before the records are loaded, empties
    the results and leaves the query and the suggestions as they were; the
    page then shows the welcome section when the query is empty and that
    nothing was found otherwise. *)
Theorem blank_search_clears_results
    (searchEngine : option ProblemSearchEngine) (st : Home.State) :
  searchEngine = None \/ forallb is_space (Home.query st) = true ->
  Home.handleSearch searchEngine st
  = Home.mkState (Home.query st) [] (Home.suggestions st)
                 (Home.showSuggestions st)
  /\ Home.handleKeyPress searchEngine (str "Enter") st
     = Home.handleSearch searchEngine st
  /\ Home.view (Home.handleSearch searchEngine st)
     = (if falsy (Home.query st) then Home.Welcome else Home.NoResultsFound).
Proof.
  intros H.
  assert (Home.handleSearch searchEngine st
          = Home.mkState (Home.query st) [] (Home.suggestions st)
                         (Home.showSuggestions st)) as E.
  { unfold Home.handleSearch. destruct searchEngine as [eng|]; [|reflexivity].
    destruct H as [H|H]; [discriminate|]. rewrite falsy_trim, H.
    reflexivity. }
  split; [exact E|]. split; [reflexivity|]. rewrite E. reflexivity.
Qed.

(* ================================================================== *)
(** ** The further properties at concrete inputs *)

Lemma tokenize_token_fixed_witness :
  In (str "sum") (tokenize (str "Two Sum"))
  /\ tokenize (str "sum") = [str "sum"].
Proof.
  assert (In (str "sum") (tokenize (str "Two Sum"))) as H
    by (vm_compute; tauto).
  split; [exact H|]. exact (tokenize_token_fixed (str "Two Sum") (str "sum") H).
Defined.

Lemma search_results_well_formed_witness :
  In (mkResult (Some three_sum) 2 [contains])
     (search (new [two_sum; three_sum]) (str "sum") 10)
  /\ (2 <= 2)%Z.
Proof.
  assert (In (mkResult (Some three_sum) 2 [contains])
             (search (new [two_sum; three_sum]) (str "sum") 10)) as H
    by (vm_compute; tauto).
  split; [exact H|].
  exact (proj1 (proj2 (search_results_well_formed
                         [two_sum; three_sum] (str "sum") 10 _ H))).
Defined.

Lemma larger_bound_extends_witness :
  search (new [two_sum; three_sum]) (str "sum") 1
  = firstn 1 (search (new [two_sum; three_sum]) (str "sum") 2).
Proof.
  apply (larger_bound_extends (new [two_sum; three_sum]) (str "sum")
           (k := 1) (k' := 2)).
  lia.
Defined.

Lemma own_text_finds_record_witness :
  exists r rest,
    search (new [two_sum; three_sum]) (str "Two Sum") 1 = r :: rest
    /\ (10 * Z.of_nat (length (tokenize (str "Two Sum"))) <= score r)%Z.
Proof.
  apply (@own_text_finds_record [two_sum; three_sum] 0 two_sum
           (str "Two Sum") 1).
  - reflexivity.
  - left; reflexivity.
  - vm_compute; discriminate.
  - lia.
Defined.



Lemma short_or_blank_input_closes_suggestions_witness :
  Home.suggestions
    (Home.handleInputChange (Some (new [two_sum; three_sum])) (str "   ")
                            typed_su) = [].
Proof.
  apply (@short_or_blank_input_closes_suggestions
           (Some (new [two_sum; three_sum])) (str "   ") typed_su).
  right; reflexivity.
Defined.

Lemma blank_search_clears_results_witness :
  Home.view (Home.handleSearch (Some (new [two_sum; three_sum]))
               (Home.mkState (str "  ") [] [] false))
  = Home.NoResultsFound.
Proof.
  destruct (@blank_search_clears_results (Some (new [two_sum; three_sum]))
              (Home.mkState (str "  ") [] [] false)) as [_ [_ H]].
  - right; reflexivity.
  - exact H.
Defined.

(* ================================================================== *)
(** ** [autocomplete] over any lower-casing function *)

(** At the file's [toLowerCase] these are the definitions of the engine. *)
Lemma autocomplete_with_toLowerCase (eng : ProblemSearchEngine)
    (q : jsstring) (n : Z) :
  autocomplete_with toLowerCase eng q n = autocomplete eng q n.
Proof. reflexivity. Qed.

Lemma matching_with_toLowerCase (ps : list Problem) (q : jsstring) :
  matching_titles_with toLowerCase ps q = matching_titles ps q
  /\ matching_topics_with toLowerCase ps q = matching_topics ps q.
Proof. split; reflexivity. Qed.

Section AutocompleteWithFacts.
Variable lower : jsstring -> jsstring.

Lemma titles_add_all_with (qL : jsstring) (ps : list Problem)
    (acc : list jsstring) :
  fold_left (fun s p => add_if_matches_with lower qL s (title p)) ps acc
  = add_all (filter (fun t => includes (lower t) qL) (map title ps)) acc.
Proof.
  unfold add_all. revert acc; induction ps as [|p ps IH]; intros acc.
  - reflexivity.
  - cbn [fold_left map filter]. rewrite IH. unfold add_if_matches_with.
    destruct (includes (lower (title p)) qL); reflexivity.
Qed.

Lemma topic_add_all_with (qL : jsstring) (ts acc : list jsstring) :
  fold_left (add_if_matches_with lower qL) ts acc
  = add_all (filter (fun t => includes (lower t) qL) ts) acc.
Proof.
  unfold add_all. revert acc; induction ts as [|t ts IH]; intros acc.
  - reflexivity.
  - cbn [fold_left filter]. rewrite IH. unfold add_if_matches_with.
    destruct (includes (lower t) qL); reflexivity.
Qed.

Lemma topics_add_all_with (qL : jsstring) (ps : list Problem)
    (acc : list jsstring) :
  fold_left (fun s p => fold_left (add_if_matches_with lower qL) (topics p) s)
            ps acc
  = add_all (filter (fun t => includes (lower t) qL) (flat_map topics ps))
            acc.
Proof.
  revert acc; induction ps as [|p ps IH]; intros acc.
  - reflexivity.
  - cbn [fold_left flat_map]. rewrite IH, topic_add_all_with, filter_app.
    unfold add_all. rewrite fold_left_app. reflexivity.
Qed.

Lemma suggestions_with_dedup (eng : ProblemSearchEngine) (q : jsstring) :
  suggestions_with lower eng q
  = dedup_first (matching_titles_with lower (problems eng) q
                 ++ matching_topics_with lower (problems eng) q).
Proof.
  unfold suggestions_with, matching_titles_with, matching_topics_with.
  rewrite titles_add_all_with, topics_add_all_with.
  fold (matches_with lower q). unfold add_all. rewrite <- fold_left_app.
  apply add_all_nil.
Qed.

Lemma autocomplete_with_In (eng : ProblemSearchEngine) (q : jsstring)
    (k : Z) (s : jsstring) :
  In s (autocomplete_with lower eng q k) ->
  (In s (map title (problems eng)) \/ In s (flat_map topics (problems eng)))
  /\ matches_with lower q s = true
  /\ forallb is_space q = false.
Proof.
  unfold autocomplete_with. rewrite falsy_trim.
  destruct (forallb is_space q) eqn:E; [intros []|]. intros Hin.
  apply slice0_incl in Hin. rewrite suggestions_with_dedup in Hin.
  apply dedup_first_In, in_app_or in Hin.
  unfold matching_titles_with, matching_topics_with in Hin.
  rewrite !filter_In in Hin. tauto.
Qed.

End AutocompleteWithFacts.

Lemma not_blank_non_space (s : jsstring) :
  forallb is_space s = false -> non_space s.
Proof.
  induction s as [|c s IH]; simpl; [discriminate|].
  destruct (is_space c) eqn:E; simpl.
  - intros H. destruct (IH H) as [x [Hin Hx]]. exists x; simpl; auto.
  - intros _. exists c; simpl; auto.
Qed.

(** **** C8, over any lower-casing function *)

(** C8, amended: for a query with a character that is not whitespace and a
    bound that is not negative, [autocomplete] returns the first
    [maxSuggestions] entries of the matching titles (records in order)
    followed by the matching topics (records in order, topics in order),
    duplicates suppressed and the first occurrence kept; that sequence is
    the distinct matching titles followed by the distinct matching topics
    that are no matching title, and no string occurs twice in it.  A text
    matches when its lower case contains the lower case of the query;
    [lower] is the function that puts in lower case, and nothing is
    assumed of it. *)
Theorem autocomplete_titles_then_topics (lower : jsstring -> jsstring)
    (eng : ProblemSearchEngine) (query : jsstring) (maxSuggestions : Z) :
  non_space query ->
  (0 <= maxSuggestions)%Z ->
  autocomplete_with lower eng query maxSuggestions
  = firstn (Z.to_nat maxSuggestions)
      (dedup_first (matching_titles_with lower (problems eng) query
                    ++ matching_topics_with lower (problems eng) query))
  /\ dedup_first (matching_titles_with lower (problems eng) query
                  ++ matching_topics_with lower (problems eng) query)
     = dedup_first (matching_titles_with lower (problems eng) query)
       ++ filter
            (fun t =>
               negb (set_has str_eqb t
                       (matching_titles_with lower (problems eng) query)))
            (dedup_first (matching_topics_with lower (problems eng) query))
  /\ NoDup (dedup_first (matching_titles_with lower (problems eng) query
                         ++ matching_topics_with lower (problems eng) query)).
Proof.
  intros Hq Hn. split; [|split].
  - unfold autocomplete_with. rewrite (non_space_passes_guard Hq).
    rewrite suggestions_with_dedup. apply slice0_nonneg, Hn.
  - apply dedup_first_app.
  - apply dedup_first_NoDup.
Qed.

(** The query "ARR" with the bound 3 over [array_records]: two titles
    match; of the four matching topics, "Array" is a title already and
    comes twice, "Array List" of the first record comes after the title of
    the second, and "Array Heap" is cut off by the bound. *)
Lemma autocomplete_titles_then_topics_witness :
  non_space (str "ARR")
  /\ (0 <= 3)%Z
  /\ matching_titles_with toLowerCase array_records (str "ARR")
     = [str "Array"; str "Sort Array"]
  /\ matching_topics_with toLowerCase array_records (str "ARR")
     = [str "Array List"; str "Array"; str "Array"; str "Array Heap"]
  /\ dedup_first
       (matching_titles_with toLowerCase array_records (str "ARR")
        ++ matching_topics_with toLowerCase array_records (str "ARR"))
     = [str "Array"; str "Sort Array"; str "Array List"; str "Array Heap"]
  /\ autocomplete_with toLowerCase (new array_records) (str "ARR") 3
     = [str "Array"; str "Sort Array"; str "Array List"]
  /\ autocomplete (new array_records) (str "ARR") 3
     = [str "Array"; str "Sort Array"; str "Array List"].
Proof.
  assert (non_space (str "ARR")) as Hq
    by (exists 65%N; split; [simpl; tauto | reflexivity]).
  assert (0 <= 3)%Z as Hn by lia.
  split; [exact Hq|]. split; [exact Hn|].
  split; [vm_compute; reflexivity|]. split; [vm_compute; reflexivity|].
  split; [vm_compute; reflexivity|].
  assert (autocomplete_with toLowerCase (new array_records) (str "ARR") 3
          = [str "Array"; str "Sort Array"; str "Array List"]) as H.
  { rewrite (proj1 (autocomplete_titles_then_topics toLowerCase
                      (new array_records) Hq Hn)).
    vm_compute; reflexivity. }
  split; [exact H|]. rewrite <- autocomplete_with_toLowerCase. exact H.
Defined.

(** **** X11, over any lower-casing function *)

(** X11: whatever the query and the bound, [autocomplete] returns no string
    twice; every string that it returns is the title or a topic of a
    record of the engine, as it is stored, and its lower case contains the
    lower case of the query, which has a character that is not whitespace;
    and the string is not empty when only the empty string has an empty
    lower case.  [lower] is the function that puts in lower case. *)
Theorem autocomplete_sound (lower : jsstring -> jsstring)
    (eng : ProblemSearchEngine) (query : jsstring) (maxSuggestions : Z) :
  NoDup (autocomplete_with lower eng query maxSuggestions)
  /\ forall s,
       In s (autocomplete_with lower eng query maxSuggestions) ->
       (In s (map title (problems eng))
        \/ In s (flat_map topics (problems eng)))
       /\ includes (lower s) (lower query) = true
       /\ non_space query
       /\ ((forall t, lower t = [] <-> t = []) -> s <> []).
Proof.
  split.
  - unfold autocomplete_with. destruct (falsy (trim query)); [constructor|].
    unfold slice0. apply NoDup_firstn. rewrite suggestions_with_dedup.
    apply dedup_first_NoDup.
  - intros s Hin. destruct (autocomplete_with_In _ _ _ _ _ Hin)
      as [H1 [H2 H3]].
    split; [exact H1|]. split; [exact H2|].
    split; [apply not_blank_non_space, H3|].
    intros Hnil ->. unfold matches_with in H2.
    rewrite (proj2 (Hnil []) eq_refl) in H2. simpl in H2.
    destruct (lower query) as [|c l] eqn:F; [|discriminate H2].
    apply (proj1 (Hnil query)) in F. rewrite F in H3. discriminate H3.
Qed.

(** The suggestion "Array List" for the query "ARR" over [array_records]. *)
Lemma autocomplete_sound_witness :
  In (str "Array List")
     (autocomplete_with toLowerCase (new array_records) (str "ARR") 3)
  /\ In (str "Array List") (flat_map topics array_records)
  /\ includes (toLowerCase (str "Array List")) (toLowerCase (str "ARR"))
     = true
  /\ str "Array List" <> [].
Proof.
  assert (In (str "Array List")
             (autocomplete_with toLowerCase (new array_records)
                                (str "ARR") 3)) as Hin
    by (vm_compute; tauto).
  destruct (autocomplete_sound toLowerCase (new array_records)
              (str "ARR") 3) as [_ H].
  destruct (H _ Hin) as [_ [H2 [_ H4]]].
  split; [exact Hin|]. split; [vm_compute; tauto|]. split; [exact H2|].
  apply H4. intros t. split; [apply toLowerCase_nil | intros ->; reflexivity].
Defined.
